(** * Shape inference and diff engine of api-inspector-server

    A shallow embedding of [src/diff/analyzer.ts]: the shape extractor
    ([getTypeName], [extractArrayShape], [extractShape]) and the diff
    analyzer ([getFieldPaths], [getTypeAtPath], [analyzeEndpointDiffs]),
    followed by the properties the specification states about them.

    Conventions of the embedding.
    - JavaScript strings are byte strings; the only character the code
      inspects is the ASCII dot.
    - An object is the list of its own enumerable properties in [for-in]
      order, together with its prototype.  Property lists are meant to have
      distinct keys, as every JavaScript object has.
    - Code that can raise an exception returns a [Completion]. *)

Set Warnings "-register-all,-clear-no-such-hyp".
From Stdlib Require Import QArith DecimalString Ascii.
From stdpp Require Import gmap strings list.

(** ** Completions: a value or a thrown exception *)

Inductive JsError : Type :=
| TypeError (message : string).

Inductive Completion (A : Type) : Type :=
| Normal (value : A)
| Throw (error : JsError).
Arguments Normal {A} value.
Arguments Throw {A} error.

#[global] Instance Completion_ret : MRet Completion := fun A x => Normal x.
#[global] Instance Completion_bind : MBind Completion := fun A B f m =>
  match m with
  | Normal x => f x
  | Throw e => Throw e
  end.
#[global] Instance Completion_fmap : FMap Completion := fun A B f m =>
  match m with
  | Normal x => Normal (f x)
  | Throw e => Throw e
  end.

(** [for (const x of xs) state = body(x, state)], leaving at the first
    exception. *)
Fixpoint forOf {A S : Type} (body : A -> S -> Completion S) (xs : list A)
    (state : S) : Completion S :=
  match xs with
  | [] => Normal state
  | x :: rest => state' ← body x state; forOf body rest state'
  end.

(** ** Values *)

(** A JavaScript number: a finite rational, an infinity or NaN. *)
Inductive JsNumber : Type :=
| Finite (q : Q)
| Infinite (negative : bool)
| NaN.

(** The values the extractor can be handed: what [JSON.parse] produces,
    [undefined], and the two primitive kinds [typeof] reports that the
    extractor has no tag for.  Functions are left out: none of them comes
    out of [JSON.parse]. *)
Inductive JsValue : Type :=
| JNull
| JUndefined
| JBoolean (b : bool)
| JNumber (n : JsNumber)
| JString (s : string)
| JBigInt (z : Z)
| JSymbol (description : string)
| JArray (elems : list JsValue)
| JObject (props : list (string * JsValue)).

(** [ShapeValue = string | ShapeObject | ShapeArray | null].  The prototype
    of a shape object is [None] for [Object.prototype], which every object
    literal starts with, and [Some p] once [p] has been installed through
    the [__proto__] setter ([Some SNull] is the null prototype). *)
Inductive ShapeValue : Type :=
| SString (tag : string)
| SNull
| SArray (elems : list ShapeValue)
| SObject (props : list (string * ShapeValue)) (proto : option ShapeValue).

Section ShapeValue_induction.
Variable P : ShapeValue -> Prop.
Hypothesis HString : forall tag, P (SString tag).
Hypothesis HNull : P SNull.
Hypothesis HArray : forall elems, Forall P elems -> P (SArray elems).
Hypothesis HObject : forall props proto,
  Forall (fun kv => P kv.2) props ->
  from_option P True proto ->
  P (SObject props proto).

Fixpoint ShapeValue_nested_ind (s : ShapeValue) : P s :=
  match s with
  | SString tag => HString tag
  | SNull => HNull
  | SArray elems =>
      HArray elems
        ((fix all (l : list ShapeValue) : Forall P l :=
            match l with
            | [] => Forall_nil_2 P
            | x :: l' => Forall_cons_2 P x l' (ShapeValue_nested_ind x) (all l')
            end) elems)
  | SObject props proto =>
      HObject props proto
        ((fix all (l : list (string * ShapeValue)) : Forall (fun kv => P kv.2) l :=
            match l with
            | [] => Forall_nil_2 _
            | kv :: l' =>
                Forall_cons_2 (fun kv => P kv.2) kv l'
                  (ShapeValue_nested_ind kv.2) (all l')
            end) props)
        (match proto as o return from_option P True o with
         | Some q => ShapeValue_nested_ind q
         | None => I
         end)
  end.
End ShapeValue_induction.

Section JsValue_induction.
Variable P : JsValue -> Prop.
Hypothesis HNull : P JNull.
Hypothesis HUndefined : P JUndefined.
Hypothesis HBoolean : forall b, P (JBoolean b).
Hypothesis HNumber : forall n, P (JNumber n).
Hypothesis HString : forall s, P (JString s).
Hypothesis HBigInt : forall z, P (JBigInt z).
Hypothesis HSymbol : forall d, P (JSymbol d).
Hypothesis HArray : forall elems, Forall P elems -> P (JArray elems).
Hypothesis HObject : forall props,
  Forall (fun kv => P kv.2) props -> P (JObject props).

Fixpoint JsValue_nested_ind (v : JsValue) : P v :=
  match v with
  | JNull => HNull
  | JUndefined => HUndefined
  | JBoolean b => HBoolean b
  | JNumber n => HNumber n
  | JString s => HString s
  | JBigInt z => HBigInt z
  | JSymbol d => HSymbol d
  | JArray elems =>
      HArray elems
        ((fix all (l : list JsValue) : Forall P l :=
            match l with
            | [] => Forall_nil_2 P
            | x :: l' => Forall_cons_2 P x l' (JsValue_nested_ind x) (all l')
            end) elems)
  | JObject props =>
      HObject props
        ((fix all (l : list (string * JsValue)) : Forall (fun kv => P kv.2) l :=
            match l with
            | [] => Forall_nil_2 _
            | kv :: l' =>
                Forall_cons_2 (fun kv => P kv.2) kv l'
                  (JsValue_nested_ind kv.2) (all l')
            end) props)
  end.
End JsValue_induction.

(** ** Strings *)

(** [===] on strings. *)
Definition strictEq (a b : string) : bool := String.eqb a b.

(** Truthiness of a string: every string but the empty one. *)
Definition truthy (s : string) : bool := negb (strictEq s "").

(** [String(n)] for a non-negative integer. *)
Definition Number_toString (n : nat) : string :=
  NilZero.string_of_uint (Nat.to_uint n).

(** [s.split(sep)] for a one-character separator: the pieces between the
    separators, the empty string giving one empty piece. *)
Fixpoint String_split (sep : ascii) (s : string) : list string :=
  match s with
  | EmptyString => [EmptyString]
  | String c rest =>
      if Ascii.eqb c sep then EmptyString :: String_split sep rest
      else
        match String_split sep rest with
        | piece :: pieces => String c piece :: pieces
        | [] => [String c EmptyString]
        end
  end.

(** [parts.join(sep)]. *)
Fixpoint Array_join (sep : string) (parts : list string) : string :=
  match parts with
  | [] => ""
  | [x] => x
  | x :: rest => x +:+ sep +:+ Array_join sep rest
  end.

(** ** Sets of strings in insertion order *)

Definition Set_has (x : string) (s : list string) : bool :=
  existsb (strictEq x) s.

(** [s.add(x)]: a new member goes last, a present one stays where it is. *)
Definition Set_add (x : string) (s : list string) : list string :=
  if Set_has x s then s else s ++ [x].

(** ** Properties of objects *)

Section Properties.
Context {V : Type}.

(** The value of the own property [key], if there is one. *)
Fixpoint getOwn (key : string) (props : list (string * V)) : option V :=
  match props with
  | [] => None
  | (k, v) :: rest => if strictEq k key then Some v else getOwn key rest
  end.

Definition hasOwn (key : string) (props : list (string * V)) : bool :=
  match getOwn key props with Some _ => true | None => false end.

(** Defining the own data property [key]: an existing one keeps its
    place, a new one is enumerated last. *)
Fixpoint defineOwn (key : string) (v : V) (props : list (string * V))
    : list (string * V) :=
  match props with
  | [] => [(key, v)]
  | (k, w) :: rest =>
      if strictEq k key then (k, v) :: rest
      else (k, w) :: defineOwn key v rest
  end.
End Properties.

(** The indices of an array as property keys. *)
Definition indexed {V : Type} (elems : list V) : list (string * V) :=
  imap (fun i e => (Number_toString i, e)) elems.

(** ** Shape extractor *)

(** [typeof value]. *)
Definition typeof (value : JsValue) : string :=
  match value with
  | JNull => "object"
  | JUndefined => "undefined"
  | JBoolean _ => "boolean"
  | JNumber _ => "number"
  | JString _ => "string"
  | JBigInt _ => "bigint"
  | JSymbol _ => "symbol"
  | JArray _ => "object"
  | JObject _ => "object"
  end.

Definition isNull (value : JsValue) : bool :=
  match value with JNull => true | _ => false end.

Definition isUndefined (value : JsValue) : bool :=
  match value with JUndefined => true | _ => false end.

Definition Array_isArray (value : JsValue) : bool :=
  match value with JArray _ => true | _ => false end.

(** [Number.isInteger(value)]. *)
Definition Number_isInteger (value : JsValue) : bool :=
  match value with
  | JNumber (Finite q) => (Qnum q mod Zpos (Qden q) =? 0)%Z
  | _ => false
  end.

(** Get the type name for a primitive value. *)
Definition getTypeName (value : JsValue) : string :=
  if isNull value then "null"
  else if isUndefined value then "undefined"
  else if Array_isArray value then "array"
  else
    let type := typeof value in
    if strictEq type "object" then "object"
    else if strictEq type "number" then
      (if Number_isInteger value then "number" else "number")
    else if strictEq type "boolean" then "boolean"
    else if strictEq type "string" then "string"
    else "unknown".

(** [jsonObject.hasOwnProperty(key)] on a decoded JSON object.  The method
    is looked up on the object first: an own property of that name hides the
    builtin of [Object.prototype], and as no decoded JSON value is callable
    the call then throws. *)
Definition hasOwnProperty_call (props : list (string * JsValue)) (key : string)
    : Completion bool :=
  match getOwn "hasOwnProperty" props with
  | Some _ => Throw (TypeError "jsonObject.hasOwnProperty is not a function")
  | None => Normal (hasOwn key props)
  end.

(** Whether the prototype chain of an object ends in [Object.prototype],
    where the [__proto__] accessor lives.  An array in the chain leads there
    through [Array.prototype]; a null prototype ends the chain before. *)
Fixpoint inheritsFromObjectPrototype (s : ShapeValue) : bool :=
  match s with
  | SObject _ None => true
  | SObject _ (Some p) => inheritsFromObjectPrototype p
  | SArray _ => true
  | _ => false
  end.

(** [shape[key] = v] on an object shape.  The key [__proto__], unless it is
    an own property already, goes to the setter inherited from
    [Object.prototype]: an object, an array or [null] becomes the new
    prototype and any other value is dropped.  Every other key defines an
    own property. *)
Definition setProperty (shape : ShapeValue) (key : string) (v : ShapeValue)
    : ShapeValue :=
  match shape with
  | SObject props proto =>
      if strictEq key "__proto__" && negb (hasOwn key props)
         && inheritsFromObjectPrototype shape
      then
        match v with
        | SString _ => shape
        | _ => SObject props (Some v)
        end
      else SObject (defineOwn key v props) proto
  | _ => shape
  end.

(** [[x]]: the one-element array shape. *)
Definition arrayOf (x : ShapeValue) : ShapeValue := SArray [x].

(** The body of [extractArrayShape]: the shape of an array is inferred from
    its first element.  The two recursive calls of the source,
    [extractShape(firstElement)] for an object and
    [extractArrayShape(firstElement)] for an array, both go through
    [recurse]: structural recursion has to descend through the element
    itself, and on an array [extractShape] does nothing but hand it to
    [extractArrayShape] (lemma [extractShape_array] below). *)
Definition extractArrayShape_body (recurse : JsValue -> Completion ShapeValue)
    (arr : list JsValue) : Completion ShapeValue :=
  match arr with
  | [] => Normal (arrayOf (SString "unknown"))
  | firstElement :: _ =>
      let firstType := getTypeName firstElement in
      if strictEq firstType "object" then arrayOf <$> recurse firstElement
      else if strictEq firstType "array" then arrayOf <$> recurse firstElement
      else Normal (arrayOf (SString firstType))
  end.

(** The loop [for (const key in jsonObject)] of [extractShape] over the
    properties [entries] still to visit, [props] being all of them and
    [shape] the object built so far.  A decoded JSON object has
    [Object.prototype] as its prototype, which has nothing enumerable: the
    loop visits the own properties.  [extractShape(value)] and
    [extractArrayShape(value)] both go through [recurse], as in
    [extractArrayShape_body]. *)
Fixpoint extractProperties (recurse : JsValue -> Completion ShapeValue)
    (props entries : list (string * JsValue)) (shape : ShapeValue)
    : Completion ShapeValue :=
  match entries with
  | [] => Normal shape
  | (key, value) :: rest =>
      own ← hasOwnProperty_call props key;
      if own : bool then
        let valueType := getTypeName value in
        v ← (if strictEq valueType "object" then recurse value
             else if strictEq valueType "array" then recurse value
             else Normal (SString valueType));
        extractProperties recurse props rest (setProperty shape key v)
      else extractProperties recurse props rest shape
  end.

(** Extract shape from a JSON object. *)
Fixpoint extractShape (jsonObject : JsValue) : Completion ShapeValue :=
  if isNull jsonObject then Normal (SString "null")
  else if isUndefined jsonObject then Normal (SString "undefined")
  else
    let type := getTypeName jsonObject in
    if negb (strictEq type "object") && negb (strictEq type "array")
    then Normal (SString type)
    else
      match jsonObject with
      | JArray arr => extractArrayShape_body extractShape arr
      | JObject props =>
          extractProperties extractShape props props (SObject [] None)
      | _ => Normal (SString type)
      end.

(** Extract shape from an array. *)
Definition extractArrayShape (arr : list JsValue) : Completion ShapeValue :=
  extractArrayShape_body extractShape arr.

(** ** Diff analyzer: enumeration of the properties of a shape *)

Section ForIn.
Context {A : Type} (body : string -> ShapeValue -> A -> A).

(** One object of the prototype chain: [body] runs on each of its
    properties whose key was not visited before. *)
Fixpoint forInOwn (props : list (string * ShapeValue))
    (visited : list string) (acc : A) : list string * A :=
  match props with
  | [] => (visited, acc)
  | (key, value) :: rest =>
      if Set_has key visited then forInOwn rest visited acc
      else forInOwn rest (key :: visited) (body key value acc)
  end.

(** The same for the elements of an array of the chain, whose keys are
    the indices from [i] on. *)
Fixpoint forInIndices (elems : list ShapeValue) (i : nat)
    (visited : list string) (acc : A) : list string * A :=
  match elems with
  | [] => (visited, acc)
  | value :: rest =>
      let key := Number_toString i in
      if Set_has key visited then forInIndices rest (S i) visited acc
      else forInIndices rest (S i) (key :: visited) (body key value acc)
  end.

(** [for (const key in shape) acc = body(key, shape[key], acc)]: the own
    properties first, then those inherited along the prototype chain, a
    key hidden by an earlier object being skipped.  [Object.prototype] and
    [Array.prototype] have no enumerable property. *)
Fixpoint forInChain (shape : ShapeValue) (visited : list string) (acc : A)
    : A :=
  match shape with
  | SObject props proto =>
      let '(visited', acc') := forInOwn props visited acc in
      match proto with
      | Some p => forInChain p visited' acc'
      | None => acc'
      end
  | SArray elems => (forInIndices elems 0 visited acc).2
  | _ => acc
  end.

Definition forIn (shape : ShapeValue) (acc : A) : A :=
  forInChain shape [] acc.
End ForIn.

(** Get all field paths from a shape. *)
Fixpoint getFieldPaths (shape : ShapeValue) (prefix : string) : list string :=
  match shape with
  | SString _ => if truthy prefix then Set_add prefix [] else []
  | SArray _ => if truthy prefix then Set_add prefix [] else []
  | SObject _ _ =>
      forIn (fun key value paths =>
        let fieldPath := if truthy prefix then prefix +:+ "." +:+ key else key in
        let paths := Set_add fieldPath paths in
        let nestedPaths := getFieldPaths value fieldPath in
        fold_left (fun paths p =>
          if negb (strictEq p fieldPath) then Set_add p paths else paths)
          nestedPaths paths) shape []
  | SNull => []
  end.

(** ** Diff analyzer: type resolution at a path *)

(** What the walker of [getTypeAtPath] can hold in [current]: a shape,
    [Object.prototype] itself (what [__proto__] answers on an object
    literal), or [NOther] for [undefined] and for the builtin functions and
    numbers that live on the prototypes.  No test of the walker tells the
    values gathered in [NOther] apart. *)
Inductive Node : Type :=
| NShape (s : ShapeValue)
| NObjectPrototype
| NOther.

(** [typeof current === 'object' && current !== null &&
    !Array.isArray(current)]. *)
Definition isPlainObject (current : Node) : bool :=
  match current with
  | NShape (SObject _ _) => true
  | NObjectPrototype => true
  | _ => false
  end.

(** The data property [key] found on an object shape or further up its
    chain of shapes.  An array of the chain answers for its indices and for
    [length]. *)
Fixpoint findProperty (s : ShapeValue) (key : string) : option Node :=
  match s with
  | SObject props proto =>
      match getOwn key props with
      | Some v => Some (NShape v)
      | None =>
          match proto with
          | Some p => findProperty p key
          | None => None
          end
      end
  | SArray elems =>
      match getOwn key (indexed elems) with
      | Some v => Some (NShape v)
      | None => if strictEq key "length" then Some NOther else None
      end
  | _ => None
  end.

(** The prototype of an object shape, as the [__proto__] getter reports
    it. *)
Definition prototypeOf (s : ShapeValue) : Node :=
  match s with
  | SObject _ None => NObjectPrototype
  | SObject _ (Some p) => NShape p
  | _ => NOther
  end.

(** [current[part]].  Reading from [null] or [undefined] throws a
    TypeError.  The model admits a non-null, non-array object as receiver
    and throws for every other one: that is more exceptions than JavaScript
    raises (a string or an array would answer), so a walk that is free of
    exceptions here is free of them in JavaScript. *)
Definition readProperty (current : Node) (part : string) : Completion Node :=
  match current with
  | NShape (SObject _ _ as s) =>
      Normal
        match findProperty s part with
        | Some found => found
        | None =>
            if strictEq part "__proto__" && inheritsFromObjectPrototype s
            then prototypeOf s
            else NOther
        end
  | NObjectPrototype =>
      Normal (if strictEq part "__proto__" then NShape SNull else NOther)
  | _ => Throw (TypeError "Cannot read properties of a non-object")
  end.

(** The loop of [getTypeAtPath]: [None] is its early [return 'unknown'],
    [Some current] the node reached after the last part. *)
Fixpoint walkParts (parts : list string) (current : Node)
    : Completion (option Node) :=
  match parts with
  | [] => Normal (Some current)
  | part :: rest =>
      if isPlainObject current then
        next ← readProperty current part;
        walkParts rest next
      else Normal None
  end.

(** The tests after the loop of [getTypeAtPath]. *)
Definition classify (current : Node) : string :=
  match current with
  | NShape (SString tag) => tag
  | NShape (SArray _) => "array"
  | NShape (SObject _ _) => "object"
  | NObjectPrototype => "object"
  | NShape SNull => "unknown"
  | NOther => "unknown"
  end.

(** Get the type at a specific field path. *)
Definition getTypeAtPath (shape : ShapeValue) (path : string)
    : Completion string :=
  let parts := String_split "." path in
  landed ← walkParts parts (NShape shape);
  Normal
    match landed with
    | None => "unknown"
    | Some current => classify current
    end.

(** ** Diff analyzer: analysis of an endpoint *)

Record GroupedEndpoint : Type := {
  method : string;
  path : string;
  requestCount : nat;
  shapes : list ShapeValue;
  firstSeen : Z;
  lastSeen : Z;
  statusCodes : list Z;
  avgDuration : JsNumber
}.

(** The field [shapes] of the result is [analysisShapes] here, as the name
    is taken by [GroupedEndpoint]. *)
Record EndpointDiffAnalysis : Type := {
  endpoint : string;
  inconsistencies : list string;
  analysisShapes : list ShapeValue;
  totalShapes : nat
}.

(** The three collections filled by the first loop. *)
Record Tally : Type := {
  allFields : list string;
  fieldOccurrences : gmap string nat;
  fieldTypes : gmap string (list string)
}.

Definition emptyTally : Tally :=
  {| allFields := []; fieldOccurrences := ∅; fieldTypes := ∅ |}.

(** [x!] followed by a member access: a TypeError when [x] is
    [undefined]. *)
Definition nonNull {A : Type} (x : option A) : Completion A :=
  match x with
  | Some a => Normal a
  | None => Throw (TypeError "Cannot read properties of undefined")
  end.

(** The body of the inner loop: one field of one shape. *)
Definition tallyField (shape : ShapeValue) (field : string) (t : Tally)
    : Completion Tally :=
  let allFields := Set_add field (allFields t) in
  let fieldOccurrences :=
    <[field := default 0 (fieldOccurrences t !! field) + 1]>
      (fieldOccurrences t) in
  let fieldTypes :=
    match fieldTypes t !! field with
    | Some _ => fieldTypes t
    | None => <[field := []]> (fieldTypes t)
    end in
  type ← getTypeAtPath shape field;
  types ← nonNull (fieldTypes !! field);
  Normal {| allFields := allFields;
            fieldOccurrences := fieldOccurrences;
            fieldTypes := <[field := Set_add type types]> fieldTypes |}.

(** Collect all fields and their types across all shapes. *)
Definition tallyShape (shape : ShapeValue) (t : Tally) : Completion Tally :=
  let fields := getFieldPaths shape "" in
  forOf (tallyField shape) fields t.

Definition missingMessage (field : string) (missingCount : nat) : string :=
  "field '" +:+ field +:+ "' missing in " +:+ Number_toString missingCount
    +:+ " response" +:+ (if 1 <? missingCount then "s" else "").

Definition typesMessage (field : string) (types : list string) : string :=
  "field '" +:+ field +:+ "' has inconsistent types: "
    +:+ Array_join ", " types.

(** The body of the second loop: the inconsistencies of one field. *)
Definition detectField (total : nat) (t : Tally) (field : string)
    (inconsistencies : list string) : Completion (list string) :=
  let occurrences := default 0 (fieldOccurrences t !! field) in
  types ← nonNull (fieldTypes t !! field);
  let inconsistencies :=
    if occurrences <? total
    then inconsistencies ++ [missingMessage field (total - occurrences)]
    else inconsistencies in
  let inconsistencies :=
    if 1 <? length types
    then inconsistencies ++ [typesMessage field types]
    else inconsistencies in
  Normal inconsistencies.

(** Analyze all shapes for an endpoint and detect inconsistencies. *)
Definition analyzeEndpointDiffs (e : GroupedEndpoint)
    : Completion EndpointDiffAnalysis :=
  if length (shapes e) <=? 1 then
    Normal {| endpoint := method e +:+ " " +:+ path e;
              inconsistencies := [];
              analysisShapes := shapes e;
              totalShapes := length (shapes e) |}
  else
    t ← forOf tallyShape (shapes e) emptyTally;
    inconsistencies ← forOf (detectField (length (shapes e)) t) (allFields t) [];
    Normal {| endpoint := method e +:+ " " +:+ path e;
              inconsistencies := inconsistencies;
              analysisShapes := shapes e;
              totalShapes := length (shapes e) |}.

(** ** The example of the specification *)

Definition plain (props : list (string * ShapeValue)) : ShapeValue :=
  SObject props None.

Definition endpointOf (m p : string) (l : list ShapeValue) : GroupedEndpoint :=
  {| method := m; path := p; requestCount := length l; shapes := l;
     firstSeen := 0; lastSeen := 0; statusCodes := []; avgDuration := Finite 0 |}.

Definition exampleShapes : list ShapeValue :=
  [ plain [("id", SString "number"); ("name", SString "string");
           ("email", SString "string"); ("age", SString "number")];
    plain [("id", SString "number"); ("name", SString "string");
           ("age", SString "string")] ].

(** ** Notions used to state the properties *)

(** Members in the order in which a list shows them first. *)
Fixpoint firstOccurrences (l : list string) : list string :=
  match l with
  | [] => []
  | x :: rest => x :: filter (fun y => y ≠ x) (firstOccurrences rest)
  end.

(** Whether a shape is an object at the root. *)
Definition rootIsObject (shape : ShapeValue) : bool :=
  match shape with SObject _ _ => true | _ => false end.

(** Whether the walker stands on an object shape. *)
Definition isObjectShape (current : Node) : bool :=
  match current with
  | NShape (SObject _ _) => true
  | _ => false
  end.

(** The tag [getTypeAtPath] returns, as a plain function. *)
Definition typeAtPath (shape : ShapeValue) (path : string) : string :=
  match getTypeAtPath shape path with
  | Normal tag => tag
  | Throw _ => "unknown"
  end.

(** The path set of one shape. *)
Definition pathsOf (shape : ShapeValue) : list string := getFieldPaths shape "".

(** The field universe: every path of every shape, in first-seen order. *)
Definition fieldUniverse (l : list ShapeValue) : list string :=
  firstOccurrences (concat (pathsOf <$> l)).

(** The shapes whose path set contains [p]. *)
Definition containing (p : string) (l : list ShapeValue) : list ShapeValue :=
  filter (fun s => p ∈ pathsOf s) l.

(** The occurrence count of [p]. *)
Definition occurrenceCount (l : list ShapeValue) (p : string) : nat :=
  length (containing p l).

(** The type set of [p]: the tags resolved at [p] in the shapes that
    contain it, in first-seen order. *)
Definition typeSet (l : list ShapeValue) (p : string) : list string :=
  firstOccurrences ((fun s => typeAtPath s p) <$> containing p l).

(** The tally after the shapes [done] have gone through the first loop. *)
Definition represents (done : list ShapeValue) (t : Tally) : Prop :=
  allFields t = fieldUniverse done
  /\ forall p,
       fieldOccurrences t !! p
       = (if decide (p ∈ fieldUniverse done)
          then Some (occurrenceCount done p) else None)
       /\ fieldTypes t !! p
          = (if decide (p ∈ fieldUniverse done)
             then Some (typeSet done p) else None).

(** The messages of one path, given the shapes. *)
Definition fieldMessages (l : list ShapeValue) (p : string) : list string :=
  (if occurrenceCount l p <? length l
   then [missingMessage p (length l - occurrenceCount l p)] else [])
  ++ (if 1 <? length (typeSet l p) then [typesMessage p (typeSet l p)] else []).

Inductive Finding : Type :=
| MissingField (field : string) (missingCount : nat)
| TypeConflict (field : string) (types : list string).

Definition render (f : Finding) : string :=
  match f with
  | MissingField field missingCount => missingMessage field missingCount
  | TypeConflict field types => typesMessage field types
  end.

Definition fieldFindings (l : list ShapeValue) (p : string) : list Finding :=
  (if occurrenceCount l p <? length l
   then [MissingField p (length l - occurrenceCount l p)] else [])
  ++ (if 1 <? length (typeSet l p) then [TypeConflict p (typeSet l p)] else []).

Definition findings (l : list ShapeValue) : list Finding :=
  concat (fieldFindings l <$> fieldUniverse l).

(** Whether extraction meets an object with an own property named
    [hasOwnProperty]: in the value itself, in a property value, or in the
    first element of an array. *)
Fixpoint shadowsHasOwnProperty (value : JsValue) : bool :=
  match value with
  | JObject props =>
      hasOwn "hasOwnProperty" props
      || existsb (fun kv => shadowsHasOwnProperty kv.2) props
  | JArray (firstElement :: _) => shadowsHasOwnProperty firstElement
  | _ => false
  end.

Definition notAFunction : JsError :=
  TypeError "jsonObject.hasOwnProperty is not a function".

(** What extraction does on a value: a shape where no such object is met,
    the TypeError where one is. *)
Definition outcome (value : JsValue) : Prop :=
  (shadowsHasOwnProperty value = false ->
   exists shape, extractShape value = Normal shape)
  /\ (shadowsHasOwnProperty value = true ->
      extractShape value = Throw notAFunction).

(** ** Notions used to state further properties of the analyzer *)

(** [prefix ? `${prefix}.${key}` : key]. *)
Definition childPath (prefix key : string) : string :=
  if truthy prefix then prefix +:+ "." +:+ key else key.

(** The statements of the loop body of [getFieldPaths] that follow the
    computation of [fieldPath]. *)
Definition addPaths (fieldPath : string) (nestedPaths paths : list string)
    : list string :=
  fold_left (fun paths p =>
    if negb (strictEq p fieldPath) then Set_add p paths else paths)
    nestedPaths (Set_add fieldPath paths).

(** A string without a dot. *)
Fixpoint noDot (s : string) : bool :=
  match s with
  | EmptyString => true
  | String c rest => negb (Ascii.eqb c ".") && noDot rest
  end.

(** A key that is not empty and has no dot. *)
Definition plainKey (key : string) : bool := truthy key && noDot key.

(** A shape all of whose objects have [Object.prototype] as prototype,
    distinct keys, and keys that are not empty and have no dot. *)
Fixpoint plainShape (s : ShapeValue) : bool :=
  match s with
  | SObject props None =>
      bool_decide (NoDup props.*1)
      && forallb (fun kv => plainKey kv.1 && plainShape kv.2) props
  | SObject _ (Some _) => false
  | _ => true
  end.

(** The value found by following a chain of keys through own properties. *)
Fixpoint valueAt (s : ShapeValue) (keys : list string) : option ShapeValue :=
  match keys with
  | [] => Some s
  | key :: rest =>
      match s with
      | SObject props None =>
          match getOwn key props with
          | Some v => valueAt v rest
          | None => None
          end
      | _ => None
      end
  end.

(** ** Notions used to state further properties of the extractor *)

(** The value with every primitive datum replaced by a fixed one of its
    kind: what is left is the structure. *)
Fixpoint eraseData (value : JsValue) : JsValue :=
  match value with
  | JNull => JNull
  | JUndefined => JUndefined
  | JBoolean _ => JBoolean false
  | JNumber _ => JNumber (Finite 0)
  | JString _ => JString ""
  | JBigInt _ => JBigInt 0
  | JSymbol _ => JSymbol ""
  | JArray elems => JArray (map eraseData elems)
  | JObject props => JObject (map (fun kv => (kv.1, eraseData kv.2)) props)
  end.

(** The six tags the extractor gives to primitives. *)
Definition isTypeTag (tag : string) : bool :=
  existsb (strictEq tag)
    ["string"; "number"; "boolean"; "null"; "undefined"; "unknown"].

(** A shape that is an object or an array. *)
Definition isObjectOrArray (s : ShapeValue) : bool :=
  match s with
  | SObject _ _ | SArray _ => true
  | _ => false
  end.

(** The form of an extracted shape: tags among the six, arrays of exactly
    one element, no [null], and as prototype either [Object.prototype] or an
    object or array of that form. *)
Fixpoint extractedForm (s : ShapeValue) : bool :=
  match s with
  | SString tag => isTypeTag tag
  | SNull => false
  | SArray [x] => extractedForm x
  | SArray _ => false
  | SObject props proto =>
      forallb (fun kv => extractedForm kv.2) props
      && match proto with
         | None => true
         | Some p => isObjectOrArray p && extractedForm p
         end
  end.

(** A value that is neither an object nor an array. *)
Definition isPrimitive (value : JsValue) : bool :=
  match value with
  | JArray _ | JObject _ => false
  | _ => true
  end.

(** ** The handler of [GET /api/diffs]

    The part of [src/index.ts] that calls the extractor and the analyzer.
    The two queries of the logger, [JSON.parse] and the clock are
    parameters; the queries catch their own errors and return arrays. *)

(** [s.includes(sub)]. *)
Fixpoint String_includes (s sub : string) : bool :=
  String.prefix sub s
  || match s with
     | EmptyString => false
     | String _ rest => String_includes rest sub
     end.

(** [s] without the prefix [p], if it starts with it. *)
Fixpoint stripPrefix (p s : string) : option string :=
  match p, s with
  | EmptyString, _ => Some s
  | String a p', String b s' => if Ascii.eqb a b then stripPrefix p' s' else None
  | String _ _, EmptyString => None
  end.

(** The longest run of characters other than the quote at the head of a
    string, and what follows it. *)
Fixpoint spanNotQuote (s : string) : string * string :=
  match s with
  | EmptyString => (EmptyString, EmptyString)
  | String c rest =>
      if Ascii.eqb c "'" then (EmptyString, s)
      else let '(run, after) := spanNotQuote rest in (String c run, after)
  end.

(** A match of [field '([^']+)'] followed by [tail] at the head of a
    string: the group and what follows the match.  The class has no quote,
    so the group can only be the whole run up to the next quote. *)
Definition matchFieldHere (tail s : string) : option (string * string) :=
  match stripPrefix "field '" s with
  | Some rest =>
      let '(group, after) := spanNotQuote rest in
      if truthy group then
        match stripPrefix tail after with
        | Some following => Some (group, following)
        | None => None
        end
      else None
  | None => None
  end.

(** The leftmost such match in a string. *)
Fixpoint matchField (tail s : string) : option (string * string) :=
  match matchFieldHere tail s with
  | Some found => Some found
  | None =>
      match s with
      | EmptyString => None
      | String _ rest => matchField tail rest
      end
  end.

(** [msg.match(/field '([^']+)' missing in/)]: the group. *)
Definition matchMissing (msg : string) : option string :=
  fst <$> matchField "' missing in" msg.

(** The longest run of characters that the dot of a regular expression
    matches: it ends at a line feed, a carriage return, or at the line or
    paragraph separator (U+2028, U+2029, three bytes each in UTF-8). *)
Fixpoint dotRun (s : string) : string :=
  match s with
  | EmptyString => EmptyString
  | String c rest =>
      if Ascii.eqb c "010" || Ascii.eqb c "013" then EmptyString
      else if String.prefix (String "226" (String "128" (String "168" EmptyString))) s
              || String.prefix (String "226" (String "128" (String "169" EmptyString))) s
      then EmptyString
      else String c (dotRun rest)
  end.

(** [msg.match(/field '([^']+)' has inconsistent types: (.+)/)]: the two
    groups.  A position where the second group would be empty is no match,
    and the search moves on. *)
Fixpoint matchTypes (msg : string) : option (string * string) :=
  match
    match matchFieldHere "' has inconsistent types: " msg with
    | Some (group, following) =>
        if truthy (dotRun following) then Some (group, dotRun following)
        else None
    | None => None
    end
  with
  | Some found => Some found
  | None =>
      match msg with
      | EmptyString => None
      | String _ rest => matchTypes rest
      end
  end.

(** [s.split(', ')]. *)
Fixpoint String_split_comma_space (s : string) : list string :=
  match s with
  | EmptyString => [EmptyString]
  | String "," (String " " rest) => EmptyString :: String_split_comma_space rest
  | String c rest =>
      match String_split_comma_space rest with
      | piece :: pieces => String c piece :: pieces
      | [] => [String c EmptyString]
      end
  end.

(** The rows of the logger, with the columns the handler reads. *)
Module Logged.
Record Endpoint : Type := {
  method : string;
  path : string;
  count : nat
}.
Record Request : Type := {
  responseBody : option string;
  statusCode : option Z;
  timestamp : Z
}.
End Logged.

(** The entries of the answer. *)
Module MissingEntry.
Record t : Type := {
  field : string;
  path : string;
  type : string
}.
End MissingEntry.

Module TypeChangeEntry.
Record t : Type := {
  field : string;
  path : string;
  type : string;
  expectedType : string;
  actualType : string
}.
End TypeChangeEntry.

Module Inconsistencies.
Record t : Type := {
  missingFields : list MissingEntry.t;
  typeChanges : list TypeChangeEntry.t;
  extraFields : list string
}.
End Inconsistencies.

Module DiffEntry.
Record t : Type := {
  method : string;
  path : string;
  totalResponses : nat;
  inconsistencies : Inconsistencies.t;
  baseShape : ShapeValue;
  variantShapes : list ShapeValue
}.
End DiffEntry.

(** What the handler answers: the success object, or status 500 with the
    message of the error caught. *)
Inductive ApiResponse : Type :=
| Success (count : nat) (data : list DiffEntry.t)
| ServerError (message : string).

(** The body of [analysis.inconsistencies.forEach]: one message parsed
    back into an entry. *)
Definition parseInconsistency (msg : string) (acc : Inconsistencies.t)
    : Inconsistencies.t :=
  if String_includes msg "missing in" then
    match matchMissing msg with
    | Some group =>
        {| Inconsistencies.missingFields :=
             Inconsistencies.missingFields acc
             ++ [{| MissingEntry.field := group;
                    MissingEntry.path := group;
                    MissingEntry.type := "missing" |}];
           Inconsistencies.typeChanges := Inconsistencies.typeChanges acc;
           Inconsistencies.extraFields := Inconsistencies.extraFields acc |}
    | None => acc
    end
  else if String_includes msg "has inconsistent types" then
    match matchTypes msg with
    | Some (group, listed) =>
        let types := String_split_comma_space listed in
        {| Inconsistencies.missingFields := Inconsistencies.missingFields acc;
           Inconsistencies.typeChanges :=
             Inconsistencies.typeChanges acc
             ++ [{| TypeChangeEntry.field := group;
                    TypeChangeEntry.path := group;
                    TypeChangeEntry.type := "type_change";
                    TypeChangeEntry.expectedType := hd "" types;
                    TypeChangeEntry.actualType := Array_join ", " (tl types) |}];
           Inconsistencies.extraFields := Inconsistencies.extraFields acc |}
    | None => acc
    end
  else acc.

(** Parse inconsistencies into structured format. *)
Definition parseInconsistencies (msgs : list string) : Inconsistencies.t :=
  fold_left (fun acc msg => parseInconsistency msg acc) msgs
    {| Inconsistencies.missingFields := [];
       Inconsistencies.typeChanges := [];
       Inconsistencies.extraFields := [] |}.

(** [x || {}] for a shape: the empty object for [null] and for the empty
    string. *)
Definition orEmptyObject (x : ShapeValue) : ShapeValue :=
  match x with
  | SNull => SObject [] None
  | SString tag => if truthy tag then x else SObject [] None
  | _ => x
  end.

(** The members of a list of numbers in first-seen order. *)
Definition distinctNumbers (l : list Z) : list Z :=
  fold_left (fun acc x => if bool_decide (x ∈ acc) then acc else acc ++ [x]) l [].

Section ApiDiffs.
Variable JSON_parse : string -> Completion JsValue.
Variable getUniqueEndpoints : list Logged.Endpoint.
Variable getEndpointRequests : string -> string -> nat -> list Logged.Request.
Variable Date_now : Z.

(** The shape of one logged response, when it counts: a non-empty body, a
    status from 200 to 299, a body that parses and a value that extracts.
    An exception of [JSON.parse] or of [extractShape] is caught and the
    response skipped. *)
Definition shapeOfResponse (req : Logged.Request) : option ShapeValue :=
  match Logged.responseBody req, Logged.statusCode req with
  | Some body, Some status =>
      if truthy body && (200 <=? status)%Z && (status <? 300)%Z then
        match parsed ← JSON_parse body; extractShape parsed with
        | Normal shape => Some shape
        | Throw _ => None
        end
      else None
  | _, _ => None
  end.

(** The body of [requests.forEach]. *)
Definition collectShape (shapes : list ShapeValue) (req : Logged.Request)
    : list ShapeValue :=
  match shapeOfResponse req with
  | Some shape => shapes ++ [shape]
  | None => shapes
  end.

(** [x || Date.now()] for a timestamp. *)
Definition orNow (x : option Z) : Z :=
  match x with
  | Some t => if (t =? 0)%Z then Date_now else t
  | None => Date_now
  end.

(** The body of the loop over the endpoints: the entry pushed for one
    endpoint, if any.  The status codes of the grouped endpoint are the
    numeric ones ([statusCodes] has no place for the null of a failed
    request; the analysis does not read the field). *)
Definition diffOfEndpoint (endpoint : Logged.Endpoint)
    : Completion (option DiffEntry.t) :=
  let requests :=
    getEndpointRequests (Logged.method endpoint) (Logged.path endpoint) 100 in
  let shapes := fold_left collectShape requests [] in
  if 1 <? length shapes then
    let groupedEndpoint :=
      {| method := Logged.method endpoint;
         path := Logged.path endpoint;
         requestCount := Logged.count endpoint;
         shapes := shapes;
         firstSeen := orNow (Logged.timestamp <$> last requests);
         lastSeen := orNow (Logged.timestamp <$> head requests);
         statusCodes := distinctNumbers (omap Logged.statusCode requests);
         avgDuration := Finite 0 |} in
    analysis ← analyzeEndpointDiffs groupedEndpoint;
    if 0 <? length (inconsistencies analysis) then
      Normal
        (Some
           {| DiffEntry.method := Logged.method endpoint;
              DiffEntry.path := Logged.path endpoint;
              DiffEntry.totalResponses := length shapes;
              DiffEntry.inconsistencies :=
                parseInconsistencies (inconsistencies analysis);
              DiffEntry.baseShape :=
                match shapes with
                | first :: _ => orEmptyObject first
                | [] => SObject [] None
                end;
              DiffEntry.variantShapes := tail shapes |})
    else Normal None
  else Normal None.

(** The loop over the endpoints. *)
Definition collectDiffs : Completion (list DiffEntry.t) :=
  forOf (fun endpoint diffs =>
           entry ← diffOfEndpoint endpoint;
           Normal match entry with
                  | Some found => diffs ++ [found]
                  | None => diffs
                  end)
    getUniqueEndpoints [].

(** Get diff analysis for all endpoints. *)
Definition apiDiffs : ApiResponse :=
  match collectDiffs with
  | Normal diffs => Success (length diffs) diffs
  | Throw (TypeError message) => ServerError message
  end.
End ApiDiffs.

(** ** Notions used to state the properties of the handler *)

(** A string without the character [c]. *)
Fixpoint lacks (c : ascii) (s : string) : bool :=
  match s with
  | EmptyString => true
  | String d rest => negb (Ascii.eqb d c) && lacks c rest
  end.

(** A string of lower-case letters, as every type name is. *)
Fixpoint isLowerCase (s : string) : bool :=
  match s with
  | EmptyString => true
  | String c rest =>
      (97 <=? N_of_ascii c)%N && (N_of_ascii c <=? 122)%N && isLowerCase rest
  end.

(** A path that the handler can parse back: not empty, without a quote,
    and without the words "missing in". *)
Definition parsablePath (p : string) : bool :=
  truthy p && lacks "'" p && negb (String_includes p "missing in").

(** A character put in front of the first piece of a split. *)
Definition consHead (c : ascii) (pieces : list string) : list string :=
  match pieces with
  | piece :: others => String c piece :: others
  | [] => [String c EmptyString]
  end.

(** The entry the handler should push for a missing field. *)
Definition missingEntryOf (p : string) : MissingEntry.t :=
  {| MissingEntry.field := p;
     MissingEntry.path := p;
     MissingEntry.type := "missing" |}.

(** The entry the handler should push for a field of several types: the
    first type seen is the expected one, the others are the actual ones. *)
Definition typeChangeEntryOf (p : string) (types : list string)
    : TypeChangeEntry.t :=
  {| TypeChangeEntry.field := p;
     TypeChangeEntry.path := p;
     TypeChangeEntry.type := "type_change";
     TypeChangeEntry.expectedType := hd "" types;
     TypeChangeEntry.actualType := Array_join ", " (tl types) |}.

(** The structured inconsistencies of a list of shapes, read off the
    occurrence counts and the type sets. *)
Definition structuredOf (l : list ShapeValue) : Inconsistencies.t :=
  {| Inconsistencies.missingFields :=
       missingEntryOf
         <$> filter (fun p => occurrenceCount l p < length l) (fieldUniverse l);
     Inconsistencies.typeChanges :=
       (fun p => typeChangeEntryOf p (typeSet l p))
         <$> filter (fun p => 1 < length (typeSet l p)) (fieldUniverse l);
     Inconsistencies.extraFields := [] |}.

(** The entries of a list of findings. *)
Definition missingOf (f : Finding) : option MissingEntry.t :=
  match f with
  | MissingField p _ => Some (missingEntryOf p)
  | TypeConflict _ _ => None
  end.

Definition typeChangeOf (f : Finding) : option TypeChangeEntry.t :=
  match f with
  | MissingField _ _ => None
  | TypeConflict p types => Some (typeChangeEntryOf p types)
  end.

(** A finding whose message the handler parses back. *)
Definition parsableFinding (f : Finding) : Prop :=
  match f with
  | MissingField p _ => parsablePath p = true
  | TypeConflict p types =>
      parsablePath p = true
      /\ Forall (fun t => isLowerCase t = true) types
      /\ 2 <= length types
  end.

(** A node of the walker that holds a shape of the extracted form, or
    none. *)
Definition extractedNode (current : Node) : Prop :=
  match current with
  | NShape SNull => True
  | NShape s => extractedForm s = true
  | _ => True
  end.

(** The shapes the handler collects from the logged responses of an
    endpoint, in the order of the log. *)
Definition collectedShapes (JSON_parse : string -> Completion JsValue)
    (requests : list Logged.Request) : list ShapeValue :=
  omap (shapeOfResponse JSON_parse) requests.

(** The entry the handler should push for an endpoint, given the shapes
    collected. *)
Definition diffEntryOf (endpoint : Logged.Endpoint) (l : list ShapeValue)
    : DiffEntry.t :=
  {| DiffEntry.method := Logged.method endpoint;
     DiffEntry.path := Logged.path endpoint;
     DiffEntry.totalResponses := length l;
     DiffEntry.inconsistencies := structuredOf l;
     DiffEntry.baseShape := hd (SObject [] None) l;
     DiffEntry.variantShapes := tail l |}.

(** An endpoint with three logged responses: two users, the second
    without an e-mail address and with the age as a string, and a failed
    request.  The bodies are named here by their content; [exampleParse]
    is [JSON.parse] on them.  A third user has a property named
    [hasOwnProperty]. *)
Definition exampleEndpoint : Logged.Endpoint :=
  {| Logged.method := "GET"; Logged.path := "/users/1"; Logged.count := 3 |}.

Definition exampleParse (body : string) : Completion JsValue :=
  if String.eqb body "first user" then
    Normal (JObject [("id", JNumber (Finite 1)); ("email", JString "a@b.c");
                     ("age", JNumber (Finite 30))])
  else if String.eqb body "second user" then
    Normal (JObject [("id", JNumber (Finite 2)); ("age", JString "thirty")])
  else if String.eqb body "third user" then
    Normal (JObject [("id", JNumber (Finite 3));
                     ("hasOwnProperty", JBoolean true)])
  else Throw (TypeError "Unexpected token").

Definition exampleRequests : list Logged.Request :=
  [ {| Logged.responseBody := Some "first user";
       Logged.statusCode := Some 200%Z; Logged.timestamp := 30%Z |};
    {| Logged.responseBody := Some "Bad gateway";
       Logged.statusCode := Some 502%Z; Logged.timestamp := 20%Z |};
    {| Logged.responseBody := Some "second user";
       Logged.statusCode := Some 200%Z; Logged.timestamp := 10%Z |} ].

(** What every entry the handler pushes satisfies, whatever the message it
    came from: the field is not empty and holds no quote, and the path
    repeats it. *)
Definition wellFormedMissing (e : MissingEntry.t) : Prop :=
  MissingEntry.field e ≠ ""
  /\ lacks "'" (MissingEntry.field e) = true
  /\ MissingEntry.path e = MissingEntry.field e
  /\ MissingEntry.type e = "missing".

Definition wellFormedTypeChange (e : TypeChangeEntry.t) : Prop :=
  TypeChangeEntry.field e ≠ ""
  /\ lacks "'" (TypeChangeEntry.field e) = true
  /\ TypeChangeEntry.path e = TypeChangeEntry.field e
  /\ TypeChangeEntry.type e = "type_change".

Definition wellFormedInconsistencies (r : Inconsistencies.t) : Prop :=
  Forall wellFormedMissing (Inconsistencies.missingFields r)
  /\ Forall wellFormedTypeChange (Inconsistencies.typeChanges r)
  /\ Inconsistencies.extraFields r = [].

(** The key of an endpoint and of an entry of the answer. *)
Definition endpointKey (endpoint : Logged.Endpoint) : string * string :=
  (Logged.method endpoint, Logged.path endpoint).

Definition entryKey (entry : DiffEntry.t) : string * string :=
  (DiffEntry.method entry, DiffEntry.path entry).

(** The number of occurrences of a character in a string. *)
Fixpoint occurrences (c : ascii) (s : string) : nat :=
  match s with
  | EmptyString => 0
  | String d rest => (if Ascii.eqb d c then 1 else 0) + occurrences c rest
  end.

(** ** Logger: the statement of [getRequests]

    The part of [getRequests] that runs before the database is asked: the
    text of the statement and the values bound to its placeholders.
    [toUpperCase] is a parameter. *)

Inductive SqlParam : Type :=
| PText (s : string)
| PNumber (n : JsNumber).

Module RequestFilters.
Record t : Type := {
  method : option string;
  path : option string;
  statusCode : option JsNumber;
  sessionId : option string;
  limit : option JsNumber
}.
End RequestFilters.

Section GetRequests.
Variable String_toUpperCase : string -> string.

(** [query] and [params] when [db.prepare] is called. *)
Definition getRequests_statement (filters : RequestFilters.t)
    : string * list SqlParam :=
  let limit := default (Finite 100) (RequestFilters.limit filters) in
  let query := "SELECT * FROM requests WHERE 1=1" in
  let params : list SqlParam := [] in
  let '(query, params) :=
    match RequestFilters.method filters with
    | Some method =>
        if truthy method
        then (query +:+ " AND method = ?",
              params ++ [PText (String_toUpperCase method)])
        else (query, params)
    | None => (query, params)
    end in
  let '(query, params) :=
    match RequestFilters.path filters with
    | Some path =>
        if truthy path
        then (query +:+ " AND path LIKE ?",
              params ++ [PText ("%" +:+ path +:+ "%")])
        else (query, params)
    | None => (query, params)
    end in
  let '(query, params) :=
    match RequestFilters.statusCode filters with
    | Some statusCode =>
        (query +:+ " AND status_code = ?", params ++ [PNumber statusCode])
    | None => (query, params)
    end in
  let '(query, params) :=
    match RequestFilters.sessionId filters with
    | Some sessionId =>
        if truthy sessionId
        then (query +:+ " AND session_id = ?", params ++ [PText sessionId])
        else (query, params)
    | None => (query, params)
    end in
  (query +:+ " ORDER BY timestamp DESC LIMIT ?", params ++ [PNumber limit]).
End GetRequests.

(** Which filters take part in the statement. *)
Definition filtersGiven (filters : RequestFilters.t)
    : bool * bool * bool * bool :=
  (from_option truthy false (RequestFilters.method filters),
   from_option truthy false (RequestFilters.path filters),
   match RequestFilters.statusCode filters with Some _ => true | None => false end,
   from_option truthy false (RequestFilters.sessionId filters)).

(** * Properties *)

(** ** Completions *)

Lemma bind_Normal {A B : Type} (f : A -> Completion B) (x : A) :
  (Normal x ≫= f) = f x.
Proof. reflexivity. Qed.

(** ** Insertion-ordered sets *)

Lemma strictEq_true a b : strictEq a b = true <-> a = b.
Proof. apply String.eqb_eq. Qed.

Lemma Set_has_true x s : Set_has x s = true <-> x ∈ s.
Proof.
  unfold Set_has. rewrite existsb_exists. split.
  - intros (y & Hy & E). apply strictEq_true in E. subst.
    by apply list_elem_of_In.
  - intros H. exists x. split; [by apply list_elem_of_In | by apply strictEq_true].
Qed.

Lemma Set_has_decide x s : Set_has x s = bool_decide (x ∈ s).
Proof.
  destruct (bool_decide (x ∈ s)) eqn:E.
  - apply bool_decide_eq_true in E. by apply Set_has_true.
  - apply bool_decide_eq_false in E. apply not_true_is_false.
    by rewrite Set_has_true.
Qed.

Lemma Set_add_present x s : x ∈ s -> Set_add x s = s.
Proof. intros H. unfold Set_add. by rewrite (proj2 (Set_has_true x s) H). Qed.

Lemma Set_add_absent x s : x ∉ s -> Set_add x s = s ++ [x].
Proof.
  intros H. unfold Set_add. rewrite Set_has_decide.
  by rewrite bool_decide_eq_false_2.
Qed.

Lemma elem_of_Set_add y x s : y ∈ Set_add x s <-> y = x \/ y ∈ s.
Proof.
  destruct (decide (x ∈ s)) as [H|H].
  - rewrite Set_add_present by done. naive_solver.
  - rewrite Set_add_absent by done.
    rewrite elem_of_app, list_elem_of_singleton. naive_solver.
Qed.

Lemma NoDup_Set_add x s : NoDup s -> NoDup (Set_add x s).
Proof.
  intros Hs. destruct (decide (x ∈ s)) as [H|H].
  - by rewrite Set_add_present.
  - rewrite Set_add_absent by done. apply NoDup_app. repeat split; try done.
    + intros y Hy Hx. apply list_elem_of_singleton in Hx. by subst.
    + apply NoDup_singleton.
Qed.

Lemma elem_of_firstOccurrences x l : x ∈ firstOccurrences l <-> x ∈ l.
Proof.
  induction l as [|y l IH]; simpl; [done|].
  rewrite !elem_of_cons, list_elem_of_filter, IH.
  destruct (decide (x = y)); naive_solver.
Qed.

Lemma NoDup_firstOccurrences l : NoDup (firstOccurrences l).
Proof.
  induction l as [|y l IH]; simpl; [constructor|].
  apply NoDup_cons. split.
  - rewrite list_elem_of_filter. naive_solver.
  - by apply NoDup_filter.
Qed.

Lemma filter_filter_absent (acc : list string) (x : string) (l : list string) :
  filter (fun y => y ∉ acc ++ [x]) l
  = filter (fun y => y ∉ acc) (filter (fun y => y ≠ x) l).
Proof.
  rewrite list_filter_filter. apply list_filter_iff. intros y.
  rewrite elem_of_app, list_elem_of_singleton. naive_solver.
Qed.

Lemma filter_filter_present (acc : list string) (x : string) (l : list string) :
  x ∈ acc ->
  filter (fun y => y ∉ acc) (filter (fun y => y ≠ x) l)
  = filter (fun y => y ∉ acc) l.
Proof.
  intros Hx. rewrite list_filter_filter. apply list_filter_iff. intros y.
  naive_solver.
Qed.

(** Adding the members of [l] one by one to a set: the new ones are
    appended in first-seen order. *)
Lemma fold_Set_add (l acc : list string) :
  fold_left (fun s x => Set_add x s) l acc
  = acc ++ filter (fun y => y ∉ acc) (firstOccurrences l).
Proof.
  revert acc. induction l as [|x l IH]; intros acc; simpl.
  - by rewrite filter_nil, app_nil_r.
  - rewrite IH. destruct (decide (x ∈ acc)) as [H|H].
    + rewrite Set_add_present by done.
      rewrite filter_cons_False by naive_solver.
      by rewrite filter_filter_present.
    + rewrite Set_add_absent by done.
      rewrite filter_cons_True by done.
      rewrite <- app_assoc. simpl. by rewrite filter_filter_absent.
Qed.

Lemma fold_Set_add_nil (l : list string) :
  fold_left (fun s x => Set_add x s) l [] = firstOccurrences l.
Proof.
  rewrite fold_Set_add. simpl.
  induction (firstOccurrences l) as [|y l' IH]; [done|].
  rewrite filter_cons_True by apply not_elem_of_nil. by rewrite IH.
Qed.

Lemma firstOccurrences_snoc (l : list string) (x : string) :
  firstOccurrences (l ++ [x]) = Set_add x (firstOccurrences l).
Proof. by rewrite <- !fold_Set_add_nil, fold_left_app. Qed.

Lemma firstOccurrences_app (l1 l2 : list string) :
  firstOccurrences (l1 ++ l2) = fold_left (fun s x => Set_add x s) l2 (firstOccurrences l1).
Proof. by rewrite <- !fold_Set_add_nil, fold_left_app. Qed.

(** ** Path enumeration yields a set *)

Section ForIn_invariant.
Context {A : Type} (body : string -> ShapeValue -> A -> A) (P : A -> Prop).
Hypothesis body_keeps : forall key value acc, P acc -> P (body key value acc).

Lemma forInOwn_keeps props visited acc :
  P acc -> P (forInOwn body props visited acc).2.
Proof.
  revert visited acc.
  induction props as [|[key value] props IH]; intros visited acc H; simpl;
    [done|].
  destruct (Set_has key visited); apply IH; auto.
Qed.

Lemma forInIndices_keeps elems i visited acc :
  P acc -> P (forInIndices body elems i visited acc).2.
Proof.
  revert i visited acc.
  induction elems as [|value elems IH]; intros i visited acc H; simpl;
    [done|].
  destruct (Set_has (Number_toString i) visited); apply IH; auto.
Qed.

Lemma forInChain_keeps shape visited acc :
  P acc -> P (forInChain body shape visited acc).
Proof.
  revert visited acc.
  induction shape as [tag| |elems _|props proto _ IH]
    using ShapeValue_nested_ind; intros visited acc H; simpl; auto.
  - by apply forInIndices_keeps.
  - pose proof (forInOwn_keeps props visited acc H) as Hown.
    destruct (forInOwn body props visited acc) as [visited' acc'].
    destruct proto as [p|]; simpl in *; auto.
Qed.
End ForIn_invariant.

Lemma NoDup_getFieldPaths shape prefix : NoDup (getFieldPaths shape prefix).
Proof.
  assert (Hleaf : NoDup (if truthy prefix then Set_add prefix [] else [])).
  { destruct (truthy prefix); [apply NoDup_Set_add|]; constructor. }
  destruct shape as [tag| |elems|props proto]; simpl; try done.
  - constructor.
  - unfold forIn. apply forInChain_keeps; [|constructor].
    intros key value acc Hacc.
    match goal with |- NoDup (fold_left ?f ?l ?a) =>
      assert (Hfold : forall l' a', NoDup a' -> NoDup (fold_left f l' a'))
    end.
    { induction l' as [|x l' IH]; intros a' Ha'; simpl; [done|].
      apply IH. destruct (negb _); [by apply NoDup_Set_add | done]. }
    apply Hfold. by apply NoDup_Set_add.
Qed.

Lemma getFieldPaths_root_not_object shape :
  rootIsObject shape = false -> getFieldPaths shape "" = [].
Proof. by destruct shape. Qed.

(** ** Type resolution never throws *)

Lemma readProperty_plain current part :
  isPlainObject current = true ->
  exists next, readProperty current part = Normal next.
Proof.
  destruct current as [[tag| |elems|props proto]| |]; simpl; try done; eauto.
Qed.

Lemma walkParts_Normal parts current :
  exists landed, walkParts parts current = Normal landed.
Proof.
  revert current. induction parts as [|part rest IH]; intros current; simpl.
  - eauto.
  - destruct (isPlainObject current) eqn:E; [|eauto].
    destruct (readProperty_plain current part E) as [next ->]. simpl.
    apply IH.
Qed.

Lemma getTypeAtPath_returns shape path :
  exists tag, getTypeAtPath shape path = Normal tag.
Proof.
  unfold getTypeAtPath.
  destruct (walkParts_Normal (String_split "." path) (NShape shape))
    as [landed ->].
  simpl. eauto.
Qed.

Lemma getTypeAtPath_typeAtPath shape path :
  getTypeAtPath shape path = Normal (typeAtPath shape path).
Proof.
  unfold typeAtPath. by destruct (getTypeAtPath_returns shape path) as [tag ->].
Qed.

(** ** The three aggregates, stated over the list of shapes *)

Lemma elem_of_fieldUniverse p l :
  p ∈ fieldUniverse l <-> exists s, s ∈ l /\ p ∈ pathsOf s.
Proof.
  unfold fieldUniverse. rewrite elem_of_firstOccurrences.
  induction l as [|s l IH]; simpl.
  - split; [by intros ?%elem_of_nil | by intros (s & ?%elem_of_nil & _)].
  - rewrite elem_of_app, IH. split.
    + intros [H|(s' & H1 & H2)]; [exists s | exists s']; split; auto;
        [left | by right].
    + intros (s' & [->|H1]%elem_of_cons & H2); [by left | right; eauto].
Qed.

Lemma NoDup_fieldUniverse l : NoDup (fieldUniverse l).
Proof. apply NoDup_firstOccurrences. Qed.

Lemma fieldUniverse_snoc l s :
  fieldUniverse (l ++ [s])
  = fold_left (fun acc x => Set_add x acc) (pathsOf s) (fieldUniverse l).
Proof.
  unfold fieldUniverse. rewrite fmap_app, concat_app. simpl.
  by rewrite app_nil_r, firstOccurrences_app.
Qed.

Lemma containing_snoc p l s :
  containing p (l ++ [s])
  = containing p l ++ (if decide (p ∈ pathsOf s) then [s] else []).
Proof.
  unfold containing. rewrite filter_app. reflexivity.
Qed.

Lemma containing_absent p l : p ∉ fieldUniverse l -> containing p l = [].
Proof.
  intros H. unfold containing.
  induction l as [|s l IH]; [done|].
  rewrite filter_cons_False.
  - apply IH. intros (s' & H1 & H2)%elem_of_fieldUniverse. apply H.
    apply elem_of_fieldUniverse. exists s'. split; [by right | done].
  - intros Hp. apply H. apply elem_of_fieldUniverse. exists s.
    split; [left | done].
Qed.

Lemma occurrenceCount_snoc l s p :
  occurrenceCount (l ++ [s]) p
  = occurrenceCount l p + (if decide (p ∈ pathsOf s) then 1 else 0).
Proof.
  unfold occurrenceCount. rewrite containing_snoc, length_app.
  by destruct (decide (p ∈ pathsOf s)).
Qed.

Lemma typeSet_snoc l s p :
  typeSet (l ++ [s]) p
  = if decide (p ∈ pathsOf s) then Set_add (typeAtPath s p) (typeSet l p)
    else typeSet l p.
Proof.
  unfold typeSet. rewrite containing_snoc.
  destruct (decide (p ∈ pathsOf s)).
  - rewrite fmap_app. simpl. by rewrite firstOccurrences_snoc.
  - by rewrite app_nil_r.
Qed.

(** ** The first loop computes the aggregates *)

Lemma tallyField_spec shape field t :
  tallyField shape field t
  = Normal
      {| allFields := Set_add field (allFields t);
         fieldOccurrences :=
           <[field := default 0 (fieldOccurrences t !! field) + 1]>
             (fieldOccurrences t);
         fieldTypes :=
           <[field := Set_add (typeAtPath shape field)
                        (default [] (fieldTypes t !! field))]>
             (fieldTypes t) |}.
Proof.
  unfold tallyField. rewrite getTypeAtPath_typeAtPath. simpl.
  destruct (fieldTypes t !! field) as [types|] eqn:E; simpl.
  - by rewrite E.
  - rewrite lookup_insert_eq. simpl. by rewrite insert_insert_eq.
Qed.

Lemma tallyFields_spec shape fields t :
  NoDup fields ->
  exists t',
    forOf (tallyField shape) fields t = Normal t'
    /\ allFields t' = fold_left (fun acc x => Set_add x acc) fields (allFields t)
    /\ forall p,
         fieldOccurrences t' !! p
         = (if decide (p ∈ fields)
            then Some (default 0 (fieldOccurrences t !! p) + 1)
            else fieldOccurrences t !! p)
         /\ fieldTypes t' !! p
            = (if decide (p ∈ fields)
               then Some (Set_add (typeAtPath shape p)
                            (default [] (fieldTypes t !! p)))
               else fieldTypes t !! p).
Proof.
  revert t. induction fields as [|f fields IH]; intros t Hnd.
  - exists t. repeat split.
  - apply NoDup_cons in Hnd as [Hf Hnd]. simpl.
    rewrite tallyField_spec. simpl.
    match goal with
    | |- context [forOf (tallyField shape) fields ?t1] =>
        destruct (IH t1 Hnd) as (t' & Hrun & Hall & Hmaps)
    end.
    exists t'. repeat split; [done|done| |]; simpl in *.
    + destruct (Hmaps p) as [-> _]. destruct (decide (p = f)) as [->|Hne].
      * rewrite decide_False by done. rewrite lookup_insert_eq.
        by rewrite decide_True by left.
      * rewrite lookup_insert_ne by done.
        destruct (decide (p ∈ fields)).
        -- by rewrite decide_True by (by right).
        -- rewrite decide_False; [done|].
           by intros [?|?]%elem_of_cons.
    + destruct (Hmaps p) as [_ ->]. destruct (decide (p = f)) as [->|Hne].
      * rewrite decide_False by done. rewrite lookup_insert_eq.
        by rewrite decide_True by left.
      * rewrite lookup_insert_ne by done.
        destruct (decide (p ∈ fields)).
        -- by rewrite decide_True by (by right).
        -- rewrite decide_False; [done|].
           by intros [?|?]%elem_of_cons.
Qed.

Lemma represents_empty : represents [] emptyTally.
Proof.
  split; [done|]. intros p. simpl. split; apply lookup_empty.
Qed.

Lemma elem_of_fieldUniverse_snoc p l s :
  p ∈ fieldUniverse (l ++ [s]) <-> p ∈ fieldUniverse l \/ p ∈ pathsOf s.
Proof.
  rewrite !elem_of_fieldUniverse. split.
  - intros (s' & [H|H]%elem_of_app & Hp); [left; eauto|].
    apply list_elem_of_singleton in H. subst. by right.
  - intros [(s' & H & Hp)|Hp].
    + exists s'. split; [apply elem_of_app; by left | done].
    + exists s. split; [|done]. apply elem_of_app. right.
      by apply list_elem_of_singleton.
Qed.

Lemma tallyShape_represents done shape t :
  represents done t ->
  exists t', tallyShape shape t = Normal t' /\ represents (done ++ [shape]) t'.
Proof.
  intros [Hall Hmaps]. unfold tallyShape.
  destruct (tallyFields_spec shape (getFieldPaths shape "") t
              (NoDup_getFieldPaths shape "")) as (t' & Hrun & Hall' & Hmaps').
  exists t'. split; [done|]. split.
  - by rewrite Hall', Hall, fieldUniverse_snoc.
  - intros p. destruct (Hmaps' p) as [-> ->]. destruct (Hmaps p) as [-> ->].
    rewrite occurrenceCount_snoc, typeSet_snoc. fold (pathsOf shape).
    pose proof (elem_of_fieldUniverse_snoc p done shape) as Hsnoc.
    destruct (decide (p ∈ pathsOf shape)) as [Hin|Hout];
      destruct (decide (p ∈ fieldUniverse done)) as [Hd|Hd];
      destruct (decide (p ∈ fieldUniverse (done ++ [shape]))) as [Hs|Hs];
      try (exfalso; tauto); simpl; rewrite ?Nat.add_0_r; try done.
    unfold occurrenceCount, typeSet. by rewrite (containing_absent p done Hd).
Qed.

Lemma tallyShapes_represents done rest t :
  represents done t ->
  exists t',
    forOf tallyShape rest t = Normal t' /\ represents (done ++ rest) t'.
Proof.
  revert done t. induction rest as [|shape rest IH]; intros done t H.
  - exists t. by rewrite app_nil_r.
  - simpl. destruct (tallyShape_represents done shape t H) as (t1 & -> & H1).
    simpl. destruct (IH _ _ H1) as (t' & Hrun & H').
    exists t'. split; [done|]. by rewrite <- app_assoc in H'.
Qed.

(** ** The second loop renders the aggregates *)

Lemma detectField_spec l t f acc :
  represents l t ->
  f ∈ fieldUniverse l ->
  detectField (length l) t f acc = Normal (acc ++ fieldMessages l f).
Proof.
  intros [_ Hmaps] Hf. unfold detectField, fieldMessages.
  destruct (Hmaps f) as [-> ->].
  destruct (decide (f ∈ fieldUniverse l)) as [_|Hn]; [simpl | done].
  destruct (occurrenceCount l f <? length l);
    destruct (1 <? length (typeSet l f)); simpl;
    by rewrite <- ?app_assoc, ?app_nil_r.
Qed.

Lemma detectFields_spec l t fields acc :
  represents l t ->
  (forall f, f ∈ fields -> f ∈ fieldUniverse l) ->
  forOf (detectField (length l) t) fields acc
  = Normal (acc ++ concat (fieldMessages l <$> fields)).
Proof.
  intros Ht. revert acc.
  induction fields as [|f fields IH]; intros acc Hin; simpl.
  - by rewrite app_nil_r.
  - rewrite (detectField_spec l t f acc Ht) by (apply Hin; left). simpl.
    rewrite IH by (intros; apply Hin; by right).
    by rewrite <- app_assoc.
Qed.

Lemma analyzeEndpointDiffs_spec e :
  2 <= length (shapes e) ->
  analyzeEndpointDiffs e
  = Normal
      {| endpoint := method e +:+ " " +:+ path e;
         inconsistencies :=
           concat (fieldMessages (shapes e) <$> fieldUniverse (shapes e));
         analysisShapes := shapes e;
         totalShapes := length (shapes e) |}.
Proof.
  intros Hlen. unfold analyzeEndpointDiffs.
  destruct (length (shapes e) <=? 1) eqn:E; [apply Nat.leb_le in E; lia|].
  destruct (tallyShapes_represents [] (shapes e) emptyTally represents_empty)
    as (t & -> & Ht).
  simpl in *. pose proof Ht as [Hall _].
  rewrite (detectFields_spec (shapes e) t); [|done|by rewrite Hall].
  by rewrite Hall.
Qed.

Lemma analyzeEndpointDiffs_short e :
  length (shapes e) <= 1 ->
  analyzeEndpointDiffs e
  = Normal
      {| endpoint := method e +:+ " " +:+ path e;
         inconsistencies := [];
         analysisShapes := shapes e;
         totalShapes := length (shapes e) |}.
Proof.
  intros Hlen. unfold analyzeEndpointDiffs.
  by rewrite (proj2 (Nat.leb_le _ _) Hlen).
Qed.

(** ** Claims about the analysis *)

(** C1. For an endpoint with N >= 2 shapes the analysis returns, and its
    inconsistency list is the concatenation, over the paths of the field
    universe (each path once), of: the message
    "field '<path>' missing in <N - occurrence> response", with an "s"
    appended exactly when the missing count exceeds 1, when the occurrence
    count is below N; followed by the message
    "field '<path>' has inconsistent types: " and the comma-joined type set
    in first-seen order, when the type set has more than one member.  The
    two messages of a path are emitted independently of each other. *)
Theorem C1_one_message_per_inconsistent_path (e : GroupedEndpoint) :
  2 <= length (shapes e) ->
  let N := length (shapes e) in
  let occurrence := occurrenceCount (shapes e) in
  let types := typeSet (shapes e) in
  exists r,
    analyzeEndpointDiffs e = Normal r
    /\ NoDup (fieldUniverse (shapes e))
    /\ inconsistencies r
       = concat
           ((fun p =>
               (if occurrence p <? N
                then ["field '" +:+ p +:+ "' missing in "
                        +:+ Number_toString (N - occurrence p) +:+ " response"
                        +:+ (if 1 <? N - occurrence p then "s" else "")]
                else [])
               ++ (if 1 <? length (types p)
                   then ["field '" +:+ p +:+ "' has inconsistent types: "
                           +:+ Array_join ", " (types p)]
                   else []))
              <$> fieldUniverse (shapes e)).
Proof.
  intros Hlen N occurrence types.
  eexists. split; [by apply analyzeEndpointDiffs_spec|].
  split; [apply NoDup_fieldUniverse | reflexivity].
Qed.

Lemma C1_witness :
  exists r,
    analyzeEndpointDiffs (endpointOf "GET" "/users" exampleShapes) = Normal r
    /\ inconsistencies r
       = ["field 'email' missing in 1 response";
          "field 'age' has inconsistent types: number, string"].
Proof.
  destruct (C1_one_message_per_inconsistent_path
              (endpointOf "GET" "/users" exampleShapes))
    as (r & Hr & _ & Hmsgs); [simpl; lia|].
  exists r. split; [exact Hr|]. rewrite Hmsgs. vm_compute. reflexivity.
Defined.

(** A path that is both missing from a response and of drifting type gets
    its two messages in the same analysis. *)
Example both_messages_for_one_path :
  inconsistencies <$>
    analyzeEndpointDiffs
      (endpointOf "GET" "/a"
         [plain [("a", SString "string")]; plain [("a", SString "number")];
          plain []])
  = Normal ["field 'a' missing in 1 response";
            "field 'a' has inconsistent types: string, number"].
Proof. vm_compute. reflexivity. Qed.

(** C2. On the two shapes {id: number, name: string, email: string,
    age: number} and {id: number, name: string, age: string}, whatever the
    other fields of the endpoint, the analysis reports that 'email' is
    missing in 1 response and that 'age' has the inconsistent types
    number, string, and nothing else. *)
Theorem C2_specification_example
    (m p : string) (count : nat) (first last : Z) (codes : list Z)
    (duration : JsNumber) :
  inconsistencies <$>
    analyzeEndpointDiffs
      {| method := m; path := p; requestCount := count;
         shapes :=
           [ SObject [("id", SString "number"); ("name", SString "string");
                      ("email", SString "string"); ("age", SString "number")]
               None;
             SObject [("id", SString "number"); ("name", SString "string");
                      ("age", SString "string")] None ];
         firstSeen := first; lastSeen := last; statusCodes := codes;
         avgDuration := duration |}
  = Normal ["field 'email' missing in 1 response";
            "field 'age' has inconsistent types: number, string"].
Proof. vm_compute. reflexivity. Qed.

(** C3. With at most one shape the analysis returns an empty inconsistency
    list whatever the shapes contain; the endpoint string "<method> <path>",
    the shapes and their count are filled in all the same. *)
Theorem C3_fewer_than_two_shapes (e : GroupedEndpoint) :
  length (shapes e) <= 1 ->
  analyzeEndpointDiffs e
  = Normal
      {| endpoint := method e +:+ " " +:+ path e;
         inconsistencies := [];
         analysisShapes := shapes e;
         totalShapes := length (shapes e) |}.
Proof. apply analyzeEndpointDiffs_short. Qed.

Lemma C3_witness :
  analyzeEndpointDiffs
    (endpointOf "POST" "/orders"
       [plain [("id", SString "number"); ("items", SArray [SNull])]])
  = Normal
      {| endpoint := "POST /orders";
         inconsistencies := [];
         analysisShapes :=
           [plain [("id", SString "number"); ("items", SArray [SNull])]];
         totalShapes := 1 |}.
Proof.
  apply (C3_fewer_than_two_shapes
           (endpointOf "POST" "/orders"
              [plain [("id", SString "number"); ("items", SArray [SNull])]])).
  simpl. lia.
Defined.

(** C4. After the first loop, the recorded fields are the paths of the
    field universe; the occurrence count of each is the number of shapes
    whose path set contains it; and its type set holds, without repetition,
    exactly the tags resolved at that path in the shapes that contain it.  A
    shape that lacks the path adds nothing to the type set, whatever its
    resolution would answer. *)
Theorem C4_occurrence_counts_and_type_sets (l : list ShapeValue) :
  exists t,
    forOf tallyShape l emptyTally = Normal t
    /\ (forall p, p ∈ allFields t <-> exists s, s ∈ l /\ p ∈ getFieldPaths s "")
    /\ forall p, p ∈ allFields t ->
         fieldOccurrences t !! p
         = Some (length (filter (fun s => p ∈ getFieldPaths s "") l))
         /\ exists types,
              fieldTypes t !! p = Some types
              /\ NoDup types
              /\ forall tag,
                   tag ∈ types
                   <-> exists s, s ∈ l /\ p ∈ getFieldPaths s ""
                                 /\ getTypeAtPath s p = Normal tag.
Proof.
  destruct (tallyShapes_represents [] l emptyTally represents_empty)
    as (t & Hrun & Hall & Hmaps).
  simpl in *. exists t. split; [done|]. split.
  - intros p. rewrite Hall. apply elem_of_fieldUniverse.
  - intros p Hp. rewrite Hall in Hp. destruct (Hmaps p) as [-> ->].
    destruct (decide (p ∈ fieldUniverse l)) as [_|Hn]; [|done].
    split; [done|].
    exists (typeSet l p). split; [done|]. split.
    + apply NoDup_firstOccurrences.
    + intros tag. unfold typeSet, containing.
      rewrite elem_of_firstOccurrences, list_elem_of_fmap. split.
      * intros (s & -> & [Hs Hl]%list_elem_of_filter). exists s.
        repeat split; try done. apply getTypeAtPath_typeAtPath.
      * intros (s & Hl & Hs & Htag). exists s. split.
        -- rewrite getTypeAtPath_typeAtPath in Htag. congruence.
        -- by apply list_elem_of_filter.
Qed.

(** The tag "unknown" that resolution answers in a shape without the path
    is not recorded. *)
Example absent_path_is_not_typed :
  getTypeAtPath (plain [("id", SString "number")]) "user.name"
  = Normal "unknown"
  /\ (t ← forOf tallyShape
             [plain [("user", plain [("name", SString "string")])];
              plain [("id", SString "number")]] emptyTally;
      Normal (fieldTypes t !! "user.name"))
     = Normal (Some ["string"]).
Proof. split; vm_compute; reflexivity. Qed.

(** ** Findings: the messages before they are rendered *)

Lemma render_findings l :
  render <$> findings l = concat (fieldMessages l <$> fieldUniverse l).
Proof.
  unfold findings. induction (fieldUniverse l) as [|p ps IH]; simpl; [done|].
  rewrite fmap_app. f_equal; [|exact IH]. unfold fieldFindings, fieldMessages.
  by destruct (occurrenceCount l p <? length l);
    destruct (1 <? length (typeSet l p)).
Qed.

Lemma elem_of_concat {A : Type} (x : A) (ls : list (list A)) :
  x ∈ concat ls <-> exists l, l ∈ ls /\ x ∈ l.
Proof.
  induction ls as [|l0 ls IH]; simpl.
  - split; [by intros ?%elem_of_nil | by intros (l & ?%elem_of_nil & _)].
  - rewrite elem_of_app, IH. split.
    + intros [H|(l & H1 & H2)]; [exists l0 | exists l]; split; auto;
        [left | by right].
    + intros (l & [->|H1]%elem_of_cons & H2); [by left | right; eauto].
Qed.

Lemma elem_of_findings f l :
  f ∈ findings l <-> exists p, p ∈ fieldUniverse l /\ f ∈ fieldFindings l p.
Proof.
  unfold findings. rewrite elem_of_concat. split.
  - intros (fs & (p & -> & Hp)%list_elem_of_fmap & Hf). eauto.
  - intros (p & Hp & Hf). exists (fieldFindings l p). split; [|done].
    apply list_elem_of_fmap. eauto.
Qed.

Lemma elem_of_findings_missing p k l :
  MissingField p k ∈ findings l
  <-> p ∈ fieldUniverse l /\ occurrenceCount l p < length l
      /\ k = length l - occurrenceCount l p.
Proof.
  rewrite elem_of_findings. unfold fieldFindings. split.
  - intros (q & Hq & Hf).
    destruct (occurrenceCount l q <? length l) eqn:E1;
      destruct (1 <? length (typeSet l q)) eqn:E2; simpl in Hf;
      repeat (apply elem_of_cons in Hf as [Hf|Hf]; [inversion Hf; subst|]);
      try (by apply elem_of_nil in Hf);
      apply Nat.ltb_lt in E1; done.
  - intros (Hp & Hocc & ->). exists p. split; [done|].
    apply Nat.ltb_lt in Hocc. rewrite Hocc. apply elem_of_app. left. left.
Qed.

Lemma elem_of_findings_conflict p ts l :
  TypeConflict p ts ∈ findings l
  <-> p ∈ fieldUniverse l /\ 1 < length (typeSet l p) /\ ts = typeSet l p.
Proof.
  rewrite elem_of_findings. unfold fieldFindings. split.
  - intros (q & Hq & Hf).
    destruct (occurrenceCount l q <? length l) eqn:E1;
      destruct (1 <? length (typeSet l q)) eqn:E2; simpl in Hf;
      repeat (apply elem_of_cons in Hf as [Hf|Hf]; [inversion Hf; subst|]);
      try (by apply elem_of_nil in Hf);
      apply Nat.ltb_lt in E2; done.
  - intros (Hp & Hlen & ->). exists p. split; [done|].
    apply Nat.ltb_lt in Hlen. rewrite Hlen. apply elem_of_app. right. left.
Qed.

(** ** The aggregates do not depend on the order of the shapes *)

Lemma fieldUniverse_Permutation l l' p :
  l ≡ₚ l' -> p ∈ fieldUniverse l <-> p ∈ fieldUniverse l'.
Proof.
  intros H. rewrite !elem_of_fieldUniverse.
  split; intros (s & Hs & Hp); exists s; split; try done.
  - by rewrite <- H.
  - by rewrite H.
Qed.

Lemma containing_Permutation l l' p :
  l ≡ₚ l' -> containing p l ≡ₚ containing p l'.
Proof. intros H. unfold containing. by rewrite H. Qed.

Lemma occurrenceCount_Permutation l l' p :
  l ≡ₚ l' -> occurrenceCount l p = occurrenceCount l' p.
Proof.
  intros H. unfold occurrenceCount.
  by rewrite (containing_Permutation l l' p H).
Qed.

Lemma typeSet_Permutation l l' p :
  l ≡ₚ l' -> typeSet l p ≡ₚ typeSet l' p.
Proof.
  intros H. apply NoDup_Permutation; try apply NoDup_firstOccurrences.
  intros tag. unfold typeSet. rewrite !elem_of_firstOccurrences.
  by rewrite (containing_Permutation l l' p H).
Qed.

(** C5. The first shape is no pivot: for an endpoint with at least two
    shapes, listing the same shapes in another order leaves unchanged which
    paths are reported missing and in how many responses, and which paths
    are reported with inconsistent types (their types are the same up to
    order).  The shapes are handed back as they came. *)
Theorem C5_order_of_shapes_is_immaterial (e e' : GroupedEndpoint) :
  2 <= length (shapes e) ->
  shapes e ≡ₚ shapes e' ->
  exists r r',
    analyzeEndpointDiffs e = Normal r
    /\ analyzeEndpointDiffs e' = Normal r'
    /\ inconsistencies r = render <$> findings (shapes e)
    /\ inconsistencies r' = render <$> findings (shapes e')
    /\ (forall p k,
          MissingField p k ∈ findings (shapes e)
          <-> MissingField p k ∈ findings (shapes e'))
    /\ (forall p,
          (exists ts, TypeConflict p ts ∈ findings (shapes e))
          <-> (exists ts', TypeConflict p ts' ∈ findings (shapes e')))
    /\ (forall p ts ts',
          TypeConflict p ts ∈ findings (shapes e) ->
          TypeConflict p ts' ∈ findings (shapes e') -> ts ≡ₚ ts')
    /\ analysisShapes r = shapes e
    /\ analysisShapes r' = shapes e'.
Proof.
  intros Hlen Hperm.
  assert (Hlen' : 2 <= length (shapes e')) by (by rewrite <- Hperm).
  do 2 eexists.
  split; [by apply analyzeEndpointDiffs_spec|].
  split; [by apply analyzeEndpointDiffs_spec|]. simpl.
  split; [by rewrite render_findings|].
  split; [by rewrite render_findings|].
  split; [|split; [|split; [|done]]].
  - intros p k. rewrite !elem_of_findings_missing.
    rewrite (fieldUniverse_Permutation _ _ p Hperm).
    rewrite (occurrenceCount_Permutation _ _ p Hperm).
    by rewrite (Permutation_length Hperm).
  - intros p.
    assert (Hsize : length (typeSet (shapes e) p)
                    = length (typeSet (shapes e') p))
      by (apply Permutation_length; by apply typeSet_Permutation).
    split; intros (ts & (Hp & Hn & ->)%elem_of_findings_conflict);
      eexists; apply elem_of_findings_conflict; repeat split;
      try reflexivity.
    + by apply (fieldUniverse_Permutation _ _ p Hperm).
    + by rewrite <- Hsize.
    + by apply (fieldUniverse_Permutation _ _ p Hperm).
    + by rewrite Hsize.
  - intros p ts ts' (_ & _ & ->)%elem_of_findings_conflict
      (_ & _ & ->)%elem_of_findings_conflict.
    by apply typeSet_Permutation.
Qed.

Lemma C5_witness :
  exists r r',
    analyzeEndpointDiffs (endpointOf "GET" "/users" exampleShapes) = Normal r
    /\ analyzeEndpointDiffs (endpointOf "GET" "/users" (reverse exampleShapes))
       = Normal r'
    /\ inconsistencies r
       = ["field 'email' missing in 1 response";
          "field 'age' has inconsistent types: number, string"]
    /\ inconsistencies r'
       = ["field 'age' has inconsistent types: string, number";
          "field 'email' missing in 1 response"].
Proof.
  destruct (C5_order_of_shapes_is_immaterial
              (endpointOf "GET" "/users" exampleShapes)
              (endpointOf "GET" "/users" (reverse exampleShapes)))
    as (r & r' & Hr & Hr' & Hm & Hm' & _); [simpl; lia | | ].
  - simpl. apply Permutation_swap.
  - exists r, r'. split; [exact Hr|]. split; [exact Hr'|]. split.
    + rewrite Hm. vm_compute. reflexivity.
    + rewrite Hm'. vm_compute. reflexivity.
Defined.

(** ** Uniform populations and non-object roots *)

Lemma firstOccurrences_replicate n (x : string) :
  firstOccurrences (replicate (S n) x) = [x].
Proof.
  induction n as [|n IH]; [done|].
  change (firstOccurrences (replicate (S (S n)) x))
    with (x :: filter (fun y => y ≠ x) (firstOccurrences (replicate (S n) x))).
  rewrite IH. by rewrite filter_cons_False by (by intros ?).
Qed.

Lemma containing_replicate n s p :
  p ∈ pathsOf s -> containing p (replicate n s) = replicate n s.
Proof.
  intros Hp. unfold containing. induction n as [|n IH]; [done|].
  rewrite replicate_S, filter_cons_True by done. by rewrite IH.
Qed.

Lemma fieldMessages_replicate n s p :
  p ∈ fieldUniverse (replicate n s) -> fieldMessages (replicate n s) p = [].
Proof.
  intros (s' & Hs' & Hp)%elem_of_fieldUniverse.
  apply elem_of_replicate in Hs' as [-> Hn].
  unfold fieldMessages, occurrenceCount, typeSet.
  rewrite containing_replicate by done. rewrite Nat.ltb_irrefl.
  destruct n as [|n]; [done|].
  by rewrite fmap_replicate, firstOccurrences_replicate.
Qed.

(** C9. A uniform population has no inconsistency: for every shape and
    every n, the analysis of n copies of the shape returns an empty
    inconsistency list. *)
Theorem C9_identical_shapes_are_consistent
    (s : ShapeValue) (n : nat) (e : GroupedEndpoint) :
  shapes e = replicate n s ->
  inconsistencies <$> analyzeEndpointDiffs e = Normal [].
Proof.
  intros Hs. destruct (decide (n <= 1)) as [Hn|Hn].
  - rewrite analyzeEndpointDiffs_short; [done|].
    by rewrite Hs, length_replicate.
  - rewrite analyzeEndpointDiffs_spec by (rewrite Hs, length_replicate; lia).
    simpl. f_equal. rewrite Hs.
    assert (Hall : forall ps, (forall p, p ∈ ps -> p ∈ fieldUniverse (replicate n s)) ->
              concat (fieldMessages (replicate n s) <$> ps) = []).
    { induction ps as [|p ps IH]; intros Hps; simpl; [done|].
      rewrite fieldMessages_replicate by (apply Hps; left).
      apply IH. intros q Hq. apply Hps. by right. }
    by apply Hall.
Qed.

Lemma C9_witness :
  inconsistencies <$>
    analyzeEndpointDiffs
      (endpointOf "GET" "/users"
         (replicate 3
            (plain [("user", plain [("id", SString "number")]);
                    ("tags", SArray [SString "string"])])))
  = Normal [].
Proof.
  apply (C9_identical_shapes_are_consistent
           (plain [("user", plain [("id", SString "number")]);
                   ("tags", SArray [SString "string"])]) 3).
  reflexivity.
Defined.

Lemma fieldUniverse_no_object_root l :
  Forall (fun s => rootIsObject s = false) l -> fieldUniverse l = [].
Proof.
  intros H. unfold fieldUniverse.
  assert (Hnil : concat (pathsOf <$> l) = []); [|by rewrite Hnil].
  induction H as [|s l Hs _ IH]; simpl; [done|].
  unfold pathsOf at 1. by rewrite getFieldPaths_root_not_object.
Qed.

(** C10. Drift of the root type goes unreported: when no shape of the
    endpoint is an object at the root, every path set is empty, the field
    universe is empty and the inconsistency list is empty, whatever the
    roots are. *)
Theorem C10_root_level_drift_is_not_reported (e : GroupedEndpoint) :
  Forall (fun s => rootIsObject s = false) (shapes e) ->
  Forall (fun s => getFieldPaths s "" = []) (shapes e)
  /\ fieldUniverse (shapes e) = []
  /\ inconsistencies <$> analyzeEndpointDiffs e = Normal [].
Proof.
  intros H. split; [|split].
  - eapply Forall_impl; [exact H|]. intros s Hs.
    by apply getFieldPaths_root_not_object.
  - by apply fieldUniverse_no_object_root.
  - destruct (decide (length (shapes e) <= 1)) as [Hn|Hn].
    + by rewrite analyzeEndpointDiffs_short.
    + rewrite analyzeEndpointDiffs_spec by lia. simpl.
      by rewrite fieldUniverse_no_object_root.
Qed.

Lemma C10_witness :
  inconsistencies <$>
    analyzeEndpointDiffs
      (endpointOf "GET" "/count"
         [SString "number"; SString "string"; SArray [SString "number"]])
  = Normal [].
Proof.
  apply (C10_root_level_drift_is_not_reported
           (endpointOf "GET" "/count"
              [SString "number"; SString "string"; SArray [SString "number"]])).
  repeat constructor.
Defined.

(** ** Type resolution *)

Lemma walkParts_app before after current :
  walkParts (before ++ after) current
  = (landed ← walkParts before current;
     match landed with
     | Some reached => walkParts after reached
     | None => Normal None
     end).
Proof.
  revert current. induction before as [|part before IH]; intros current;
    simpl; [done|].
  destruct (isPlainObject current); [|done].
  destruct (readProperty current part) as [next|err]; simpl; [apply IH|done].
Qed.

Lemma occurrenceCount_lt l s p :
  s ∈ l -> p ∉ pathsOf s -> occurrenceCount l p < length l.
Proof. intros Hs Hp. unfold occurrenceCount, containing. by eapply length_filter_lt. Qed.

Lemma fieldMessages_in_inconsistencies l p m :
  p ∈ fieldUniverse l -> m ∈ fieldMessages l p ->
  m ∈ concat (fieldMessages l <$> fieldUniverse l).
Proof.
  intros Hp Hm. apply elem_of_concat. exists (fieldMessages l p).
  split; [|done]. apply list_elem_of_fmap. eauto.
Qed.

(** What is read from [Object.prototype] resolves to "unknown", at once or
    further down. *)
Lemma walkParts_from_ObjectPrototype part after :
  exists landed,
    walkParts (part :: after) NObjectPrototype = Normal landed
    /\ match landed with
       | None => "unknown"
       | Some reached => classify reached
       end = "unknown".
Proof.
  simpl. destruct (strictEq part "__proto__"); destruct after; simpl; eauto.
Qed.

(** C8. Type resolution returns a tag for every shape and path: it never
    throws.  When the walk over the dot-separated parts stands, with a part
    still to read, on a node that is not an object shape (a missing
    intermediate object leaves it on [undefined]), the answer is
    "unknown".  A path of the field universe that a shape lacks is counted
    by the occurrence mechanism: the analysis reports it missing, and every
    tag of its type set comes from a shape that has the path. *)
Theorem C8_type_resolution_never_throws (shape : ShapeValue) (p : string) :
  (exists tag, getTypeAtPath shape p = Normal tag)
  /\ (forall before part after current,
        String_split "." p = before ++ part :: after ->
        walkParts before (NShape shape) = Normal (Some current) ->
        isObjectShape current = false ->
        getTypeAtPath shape p = Normal "unknown")
  /\ (forall e,
        2 <= length (shapes e) ->
        shape ∈ shapes e ->
        p ∈ fieldUniverse (shapes e) ->
        p ∉ getFieldPaths shape "" ->
        exists r,
          analyzeEndpointDiffs e = Normal r
          /\ occurrenceCount (shapes e) p < length (shapes e)
          /\ missingMessage p (length (shapes e) - occurrenceCount (shapes e) p)
             ∈ inconsistencies r
          /\ forall tag,
               tag ∈ typeSet (shapes e) p ->
               exists s, s ∈ shapes e /\ p ∈ getFieldPaths s ""
                         /\ getTypeAtPath s p = Normal tag).
Proof.
  split; [apply getTypeAtPath_returns|]. split.
  - intros before part after current Hsplit Hwalk Hnode.
    unfold getTypeAtPath. rewrite Hsplit, walkParts_app, Hwalk.
    rewrite bind_Normal.
    destruct current as [[tag| |elems|props proto]| |]; try done.
    destruct (walkParts_from_ObjectPrototype part after) as (landed & -> & E).
    rewrite bind_Normal. by rewrite E.
  - intros e Hlen Hshape Hp Habsent.
    eexists. split; [by apply analyzeEndpointDiffs_spec|]. simpl.
    assert (Hocc : occurrenceCount (shapes e) p < length (shapes e))
      by (by apply (occurrenceCount_lt _ shape)).
    split; [done|]. split.
    + apply (fieldMessages_in_inconsistencies _ p); [done|].
      unfold fieldMessages. apply Nat.ltb_lt in Hocc. rewrite Hocc.
      apply elem_of_app. left. left.
    + intros tag. unfold typeSet, containing.
      rewrite elem_of_firstOccurrences, list_elem_of_fmap.
      intros (s & -> & [Hs Hl]%list_elem_of_filter). exists s.
      repeat split; try done. apply getTypeAtPath_typeAtPath.
Qed.

Lemma C8_witness :
  getTypeAtPath (plain [("id", SString "number")]) "user.profile.bio"
  = Normal "unknown"
  /\ exists r,
       analyzeEndpointDiffs
         (endpointOf "GET" "/me"
            [plain [("user", plain [("profile", plain [("bio", SString "string")])])];
             plain [("id", SString "number")]])
       = Normal r
       /\ "field 'user.profile.bio' missing in 1 response" ∈ inconsistencies r.
Proof.
  destruct (C8_type_resolution_never_throws
              (plain [("id", SString "number")]) "user.profile.bio")
    as (_ & Hwalk & Htally).
  split.
  - apply (Hwalk ["user"] "profile" ["bio"] NOther); reflexivity.
  - destruct (Htally
                (endpointOf "GET" "/me"
                   [plain [("user", plain [("profile", plain [("bio", SString "string")])])];
                    plain [("id", SString "number")]]))
      as (r & Hr & _ & Hm & _).
    + simpl. lia.
    + simpl. right. left.
    + vm_compute. right. right. left.
    + vm_compute. intros H. repeat (apply elem_of_cons in H as [H|H]; [discriminate|]).
      by apply elem_of_nil in H.
    + exists r. split; [exact Hr | exact Hm].
Defined.

(** ** Claims about the extractor *)

Lemma getTypeName_spec value :
  getTypeName value
  = match value with
    | JNull => "null"
    | JUndefined => "undefined"
    | JBoolean _ => "boolean"
    | JNumber _ => "number"
    | JString _ => "string"
    | JBigInt _ | JSymbol _ => "unknown"
    | JArray _ => "array"
    | JObject _ => "object"
    end.
Proof.
  destruct value; try reflexivity.
  unfold getTypeName. cbn [isNull isUndefined Array_isArray typeof].
  by destruct (Number_isInteger (JNumber n)).
Qed.

Lemma extractShape_number n : extractShape (JNumber n) = Normal (SString "number").
Proof.
  unfold extractShape. simpl. rewrite (getTypeName_spec (JNumber n)). reflexivity.
Qed.

Lemma extractShape_array arr : extractShape (JArray arr) = extractArrayShape arr.
Proof. reflexivity. Qed.

(** The body of [extractArrayShape] with the recursive calls of the
    source. *)
Lemma extractArrayShape_unfold arr :
  extractArrayShape arr
  = match arr with
    | [] => Normal (SArray [SString "unknown"])
    | firstElement :: _ =>
        let firstType := getTypeName firstElement in
        if strictEq firstType "object" then
          arrayOf <$> extractShape firstElement
        else if strictEq firstType "array" then
          match firstElement with
          | JArray inner => arrayOf <$> extractArrayShape inner
          | _ => Normal (arrayOf (SString firstType))
          end
        else Normal (arrayOf (SString firstType))
    end.
Proof.
  destruct arr as [|[] rest]; try reflexivity.
  unfold extractArrayShape, extractArrayShape_body.
  by rewrite (getTypeName_spec (JNumber n)).
Qed.

(** C6. The empty array has the shape ["unknown"].  The shape of a
    non-empty array depends on its first element only: an object is
    extracted as an object and wrapped in a one-element array, an array goes
    through array extraction and is wrapped, and any other value gives its
    type tag in a one-element array. *)
Theorem C6_array_shape_comes_from_first_element :
  extractShape (JArray []) = Normal (SArray [SString "unknown"])
  /\ extractArrayShape [] = Normal (SArray [SString "unknown"])
  /\ (forall first rest,
        extractShape (JArray (first :: rest)) = extractShape (JArray [first])
        /\ extractArrayShape (first :: rest) = extractArrayShape [first])
  /\ (forall first rest,
        extractShape (JArray (first :: rest))
        = match first with
          | JObject _ => (fun s => SArray [s]) <$> extractShape first
          | JArray inner => (fun s => SArray [s]) <$> extractArrayShape inner
          | _ => Normal (SArray [SString (getTypeName first)])
          end).
Proof.
  repeat split; try reflexivity.
  intros first rest. destruct first; try reflexivity.
  rewrite extractShape_array. unfold extractArrayShape, extractArrayShape_body.
  by rewrite (getTypeName_spec (JNumber n)).
Qed.

(** *** Where extraction throws *)

Lemma extractShape_object props :
  extractShape (JObject props)
  = extractProperties extractShape props props (SObject [] None).
Proof. reflexivity. Qed.

(** The tags of the values that are neither arrays nor objects. *)
Lemma extractShape_primitives :
  extractShape JNull = Normal (SString "null")
  /\ extractShape JUndefined = Normal (SString "undefined")
  /\ (forall n, extractShape (JNumber n) = Normal (SString "number"))
  /\ (forall s, extractShape (JString s) = Normal (SString "string"))
  /\ (forall b, extractShape (JBoolean b) = Normal (SString "boolean"))
  /\ (forall z, extractShape (JBigInt z) = Normal (SString "unknown"))
  /\ (forall d, extractShape (JSymbol d) = Normal (SString "unknown")).
Proof. repeat split; try reflexivity. apply extractShape_number. Qed.

(** The three-way dispatch on the type name of a property value amounts to
    extracting the value. *)
Lemma extractShape_dispatch value :
  (if strictEq (getTypeName value) "object" then extractShape value
   else if strictEq (getTypeName value) "array" then extractShape value
   else Normal (SString (getTypeName value)))
  = extractShape value.
Proof.
  destruct value; try reflexivity.
  rewrite (getTypeName_spec (JNumber n)), extractShape_number. reflexivity.
Qed.

Lemma extractArrayShape_cons first rest :
  extractArrayShape (first :: rest) = arrayOf <$> extractShape first.
Proof.
  destruct first; try reflexivity.
  unfold extractArrayShape, extractArrayShape_body.
  rewrite (getTypeName_spec (JNumber n)), extractShape_number. reflexivity.
Qed.

Lemma hasOwn_elem_of {V : Type} key (v : V) props :
  (key, v) ∈ props -> hasOwn key props = true.
Proof.
  unfold hasOwn. induction props as [|[k w] props IH]; intros H.
  - by apply elem_of_nil in H.
  - simpl. destruct (strictEq k key) eqn:E; [done|].
    apply elem_of_cons in H as [H|H]; [|by apply IH].
    inversion H; subst. by rewrite (proj2 (strictEq_true k k)) in E.
Qed.

Lemma extractProperties_outcome props entries shape :
  hasOwn "hasOwnProperty" props = false ->
  (forall key v, (key, v) ∈ entries -> hasOwn key props = true) ->
  Forall (fun kv => outcome kv.2) entries ->
  (existsb (fun kv => shadowsHasOwnProperty kv.2) entries = false ->
   exists result,
     extractProperties extractShape props entries shape = Normal result)
  /\ (existsb (fun kv => shadowsHasOwnProperty kv.2) entries = true ->
      extractProperties extractShape props entries shape = Throw notAFunction).
Proof.
  intros Hfree. revert shape.
  induction entries as [|[key value] rest IH]; intros shape Hown Hall; simpl.
  - split; [eauto | done].
  - apply Forall_cons in Hall as [[Hok Hthrow] Hall]. simpl in Hok, Hthrow.
    unfold hasOwnProperty_call. unfold hasOwn in Hfree.
    destruct (getOwn "hasOwnProperty" props) eqn:E; [done|]. simpl.
    rewrite (Hown key value) by left. rewrite extractShape_dispatch.
    destruct (shadowsHasOwnProperty value) eqn:Ev; simpl.
    + rewrite Hthrow by done. split; [done | by intros _].
    + destruct Hok as [v ->]; [done|]. simpl.
      apply IH; [|done]. intros k w Hk. apply (Hown k w). by right.
Qed.

(** Extraction returns a shape exactly on the values in which it meets no
    object with an own property named [hasOwnProperty]. *)
Lemma extractShape_outcome value : outcome value.
Proof.
  induction value as [| |b|n|s|z|d|elems IH|props IH]
    using JsValue_nested_ind;
    try (split; [intros _; eexists; apply extractShape_primitives | done]).
  - destruct elems as [|first rest]; [split; [eauto|done]|].
    apply Forall_cons in IH as [[Hok Hthrow] _].
    unfold outcome. rewrite extractShape_array, extractArrayShape_cons. simpl.
    split; intros H.
    + destruct (Hok H) as [s ->]. simpl. eauto.
    + by rewrite (Hthrow H).
  - unfold outcome. rewrite extractShape_object. simpl.
    destruct (hasOwn "hasOwnProperty" props) eqn:E; simpl.
    + split; [done|]. intros _. destruct props as [|[key value] rest]; [done|].
      simpl. unfold hasOwnProperty_call. unfold hasOwn in E.
      by destruct (getOwn "hasOwnProperty" ((key, value) :: rest)).
    + apply extractProperties_outcome; try done.
      intros key v. apply hasOwn_elem_of.
Qed.

(** C7. Extraction is not total over decoded JSON: on the object
    {"hasOwnProperty": 1} the call [jsonObject.hasOwnProperty(key)] finds
    the number 1 where it expects the builtin and throws a TypeError; the
    same happens when such an object is a property value or the first
    element of an array. *)
Theorem C7_extraction_throws_on_own_hasOwnProperty :
  extractShape (JObject [("hasOwnProperty", JNumber (Finite 1))])
  = Throw (TypeError "jsonObject.hasOwnProperty is not a function")
  /\ extractShape
       (JObject [("user", JObject [("id", JNumber (Finite 1));
                                   ("hasOwnProperty", JBoolean true)])])
     = Throw (TypeError "jsonObject.hasOwnProperty is not a function")
  /\ extractShape (JArray [JObject [("hasOwnProperty", JNull)]])
     = Throw (TypeError "jsonObject.hasOwnProperty is not a function").
Proof. repeat split; vm_compute; reflexivity. Qed.

(** The examples of the specification. *)
Example extractShape_examples :
  extractShape (JObject []) = Normal (SObject [] None)
  /\ extractShape (JArray []) = Normal (SArray [SString "unknown"])
  /\ extractShape
       (JObject [("name", JString "John"); ("age", JNumber (Finite 30));
                 ("tags", JArray [JString "a"; JString "b"])])
     = Normal
         (SObject [("name", SString "string"); ("age", SString "number");
                   ("tags", SArray [SString "string"])] None)
  /\ extractShape
       (JObject [("user", JObject [("id", JNumber (Finite 1));
                                   ("profile", JObject [("bio", JString "text")])])])
     = Normal
         (SObject [("user",
                    SObject [("id", SString "number");
                             ("profile", SObject [("bio", SString "string")] None)]
                      None)] None).
Proof. repeat split; vm_compute; reflexivity. Qed.

(** * Further properties of the analyzer *)

(** ** Strings *)

Lemma append_cons c (a b : string) : String c a +:+ b = String c (a +:+ b).
Proof. reflexivity. Qed.

Lemma append_assoc (a b c : string) : (a +:+ b) +:+ c = a +:+ (b +:+ c).
Proof.
  induction a as [|x a IH]; [reflexivity|].
  by rewrite !append_cons, IH.
Qed.

Lemma truthy_true s : truthy s = true <-> s ≠ "".
Proof.
  unfold truthy. rewrite negb_true_iff. split.
  - intros H ->. by rewrite (proj2 (strictEq_true "" "")) in H.
  - intros H. apply not_true_is_false. by rewrite strictEq_true.
Qed.

Lemma truthy_append a b : truthy a = true -> truthy (a +:+ b) = true.
Proof. by destruct a. Qed.

Lemma String_split_noDot s : noDot s = true -> String_split "." s = [s].
Proof.
  induction s as [|c s IH]; simpl; [done|].
  intros [Hc Hs]%andb_true_iff. apply negb_true_iff in Hc. rewrite Hc.
  by rewrite (IH Hs).
Qed.

Lemma String_split_append s rest :
  noDot s = true ->
  String_split "." (s +:+ "." +:+ rest) = s :: String_split "." rest.
Proof.
  induction s as [|c s IH]; [done|]. rewrite append_cons. simpl.
  intros [Hc Hs]%andb_true_iff. apply negb_true_iff in Hc. rewrite Hc.
  by rewrite (IH Hs).
Qed.

Lemma String_split_join keys :
  keys ≠ [] -> Forall (fun k => noDot k = true) keys ->
  String_split "." (Array_join "." keys) = keys.
Proof.
  induction keys as [|k keys IH]; [done|]. intros _ Hall.
  apply Forall_cons in Hall as [Hk Hall].
  destruct keys as [|k' keys].
  - simpl. by apply String_split_noDot.
  - change (Array_join "." (k :: k' :: keys))
      with (k +:+ "." +:+ Array_join "." (k' :: keys)).
    rewrite String_split_append by done. f_equal. by apply IH.
Qed.

(** ** The path set of a plain shape *)

Lemma getFieldPaths_object props proto prefix :
  getFieldPaths (SObject props proto) prefix
  = forIn (fun key value paths =>
             addPaths (childPath prefix key)
               (getFieldPaths value (childPath prefix key)) paths)
      (SObject props proto) [].
Proof. reflexivity. Qed.

Lemma elem_of_addPaths q fieldPath nested paths :
  q ∈ addPaths fieldPath nested paths
  <-> q ∈ paths \/ q = fieldPath \/ q ∈ nested.
Proof.
  unfold addPaths.
  assert (Hfold : forall l acc,
    q ∈ fold_left (fun paths p =>
           if negb (strictEq p fieldPath) then Set_add p paths else paths)
         l acc
    <-> q ∈ acc \/ (q ∈ l /\ q ≠ fieldPath)).
  { induction l as [|x l IH]; intros acc; simpl.
    - split; [by left | intros [H|[H _]]; [done | by apply elem_of_nil in H]].
    - rewrite IH. destruct (strictEq x fieldPath) eqn:E; simpl.
      + apply strictEq_true in E. subst x. rewrite elem_of_cons. naive_solver.
      + assert (x ≠ fieldPath) by (intros ->; by rewrite (proj2 (strictEq_true _ _)) in E).
        rewrite elem_of_Set_add, elem_of_cons. naive_solver. }
  rewrite Hfold, elem_of_Set_add.
  destruct (decide (q = fieldPath)); naive_solver.
Qed.

Lemma getOwn_elem_of {V : Type} key (v : V) props :
  NoDup props.*1 -> (key, v) ∈ props -> getOwn key props = Some v.
Proof.
  induction props as [|[k w] props IH]; intros Hnd H.
  - by apply elem_of_nil in H.
  - simpl in *. apply NoDup_cons in Hnd as [Hk Hnd].
    apply elem_of_cons in H as [H|H].
    + inversion H; subst. by rewrite (proj2 (strictEq_true k k)).
    + destruct (strictEq k key) eqn:E; [|by apply IH].
      apply strictEq_true in E. subst. exfalso. apply Hk.
      apply list_elem_of_fmap. by exists (key, v).
Qed.

Lemma getOwn_Some_elem_of {V : Type} key (v : V) props :
  getOwn key props = Some v -> (key, v) ∈ props.
Proof.
  induction props as [|[k w] props IH]; simpl; [done|].
  destruct (strictEq k key) eqn:E.
  - apply strictEq_true in E. subst. intros [= ->]. left.
  - intros H. right. by apply IH.
Qed.

Lemma forInOwn_paths prefix props visited acc q :
  NoDup props.*1 ->
  (forall k, k ∈ props.*1 -> k ∉ visited) ->
  q ∈ (forInOwn (fun key value paths =>
                   addPaths (childPath prefix key)
                     (getFieldPaths value (childPath prefix key)) paths)
         props visited acc).2
  <-> q ∈ acc
      \/ exists k v, (k, v) ∈ props
           /\ (q = childPath prefix k
               \/ q ∈ getFieldPaths v (childPath prefix k)).
Proof.
  revert visited acc.
  induction props as [|[k v] props IH]; intros visited acc Hnd Hfresh; simpl.
  - split; [by left | intros [H|(k & v & H & _)]; [done | by apply elem_of_nil in H]].
  - simpl in Hnd. apply NoDup_cons in Hnd as [Hk Hnd].
    assert (Hv : Set_has k visited = false).
    { apply not_true_is_false. rewrite Set_has_true. apply Hfresh. left. }
    rewrite Hv, IH; [|done|].
    + rewrite elem_of_addPaths. split.
      * intros [[H|H]|(k' & v' & Hin & H)].
        -- by left.
        -- right. exists k, v. split; [left | tauto].
        -- right. exists k', v'. split; [by right | done].
      * intros [H|(k' & v' & [Heq|Hin]%elem_of_cons & H)].
        -- left. by left.
        -- inversion Heq; subst. left. right. tauto.
        -- right. eauto.
    + intros k' Hk' [->|Hin]%elem_of_cons; [done|].
      apply (Hfresh k'); [by right | done].
Qed.

Lemma plainShape_object props :
  plainShape (SObject props None) = true ->
  NoDup props.*1
  /\ forall k v, (k, v) ∈ props -> plainKey k = true /\ plainShape v = true.
Proof.
  simpl. intros [Hnd Hall]%andb_true_iff. apply bool_decide_eq_true in Hnd.
  split; [done|]. intros k v Hin. rewrite forallb_forall in Hall.
  apply list_elem_of_In in Hin. by apply (Hall (k, v)) in Hin as ?%andb_true_iff.
Qed.

Lemma getFieldPaths_plain_object props prefix q :
  NoDup props.*1 ->
  q ∈ getFieldPaths (SObject props None) prefix
  <-> exists k v, (k, v) ∈ props
        /\ (q = childPath prefix k \/ q ∈ getFieldPaths v (childPath prefix k)).
Proof.
  intros Hnd. rewrite getFieldPaths_object. unfold forIn. simpl.
  match goal with
  | |- context [forInOwn ?body props [] []] =>
      pose proof (forInOwn_paths prefix props [] [] q Hnd) as H;
      destruct (forInOwn body props [] []) as [visited' acc'] eqn:E
  end.
  simpl in H. rewrite H.
  - split; [intros [?%elem_of_nil|?]; done | by right].
  - intros k _. apply not_elem_of_nil.
Qed.

(** The path that a chain of keys spells under a prefix. *)
Lemma childPath_join prefix k keys :
  keys ≠ [] ->
  childPath prefix k +:+ "." +:+ Array_join "." keys
  = childPath prefix (Array_join "." (k :: keys)).
Proof.
  intros Hkeys. destruct keys as [|k' keys]; [done|].
  change (Array_join "." (k :: k' :: keys))
    with (k +:+ "." +:+ Array_join "." (k' :: keys)).
  unfold childPath. destruct (truthy prefix); [|done].
  by rewrite !append_assoc.
Qed.

Lemma truthy_childPath prefix k : truthy k = true -> truthy (childPath prefix k) = true.
Proof.
  intros Hk. unfold childPath. destruct (truthy prefix) eqn:E; [|done].
  by apply truthy_append.
Qed.

Lemma getFieldPaths_plain s :
  plainShape s = true ->
  forall prefix q,
    truthy prefix = true ->
    q ∈ getFieldPaths s prefix
    <-> (q = prefix /\ match s with SString _ | SArray _ => True | _ => False end)
        \/ exists keys v, keys ≠ [] /\ valueAt s keys = Some v
             /\ q = prefix +:+ "." +:+ Array_join "." keys.
Proof.
  induction s as [tag| |elems _|props proto IH _] using ShapeValue_nested_ind;
    intros Hplain prefix q Hprefix.
  - simpl. rewrite Hprefix. unfold Set_add. simpl.
    rewrite list_elem_of_singleton. split; [by left|].
    intros [[-> _]|(keys & v & Hk & Hv & _)]; [done|]. by destruct keys.
  - simpl. split; [by intros ?%elem_of_nil|].
    intros [[_ []]|(keys & v & Hk & Hv & _)]. by destruct keys.
  - simpl. rewrite Hprefix. unfold Set_add. simpl.
    rewrite list_elem_of_singleton. split; [by left|].
    intros [[-> _]|(keys & v & Hk & Hv & _)]; [done|]. by destruct keys.
  - destruct proto as [p|]; [done|].
    destruct (plainShape_object props Hplain) as [Hnd Hprops].
    rewrite getFieldPaths_plain_object by done. rewrite Forall_forall in IH.
    assert (Hchild : forall k, childPath prefix k = prefix +:+ "." +:+ k)
      by (intros k; unfold childPath; by rewrite Hprefix).
    split.
    + intros (k & v & Hin & Hq). right.
      destruct (Hprops k v Hin) as [[Hk _]%andb_true_iff Hv].
      assert (Hown : getOwn k props = Some v) by (by apply getOwn_elem_of).
      destruct Hq as [->|Hq].
      * exists [k], v. split; [done|]. split; [by simpl; rewrite Hown|].
        by rewrite Hchild.
      * pose proof (IH (k, v) Hin Hv (childPath prefix k) q
                      (truthy_childPath prefix k Hk)) as Hiff.
        simpl in Hiff. apply Hiff in Hq.
        destruct Hq as [[-> _]|(keys & v' & Hkeys & Hv' & ->)].
        -- exists [k], v. split; [done|]. split; [by simpl; rewrite Hown|].
           by rewrite Hchild.
        -- exists (k :: keys), v'. split; [done|]. split; [by simpl; rewrite Hown|].
           rewrite childPath_join by done. by rewrite Hchild.
    + intros [[_ []]|(keys & v' & Hkeys & Hv' & ->)].
      destruct keys as [|k keys]; [done|]. simpl in Hv'.
      destruct (getOwn k props) as [v|] eqn:Hown; [|done].
      apply getOwn_Some_elem_of in Hown as Hin. exists k, v. split; [done|].
      destruct (Hprops k v Hin) as [[Hk _]%andb_true_iff Hv].
      destruct keys as [|k' keys].
      * left. by rewrite Hchild.
      * right.
        apply (IH (k, v) Hin Hv (childPath prefix k) _
                 (truthy_childPath prefix k Hk)).
        right. exists (k' :: keys), v'. split; [done|]. split; [done|].
        rewrite childPath_join by done. by rewrite Hchild.
Qed.

Lemma getFieldPaths_plain_root s q :
  plainShape s = true ->
  q ∈ getFieldPaths s ""
  <-> exists keys v, keys ≠ [] /\ valueAt s keys = Some v
        /\ q = Array_join "." keys.
Proof.
  intros Hplain.
  destruct s as [tag| |elems|props [p|]]; try done;
    try (simpl; split;
         [by intros ?%elem_of_nil
         |intros (keys & v & Hk & Hv & _); by destruct keys]).
  destruct (plainShape_object props Hplain) as [Hnd Hprops].
  rewrite getFieldPaths_plain_object by done. split.
  - intros (k & v & Hin & Hq).
    destruct (Hprops k v Hin) as [[Hk _]%andb_true_iff Hv].
    assert (Hown : getOwn k props = Some v) by (by apply getOwn_elem_of).
    change (childPath "" k) with k in Hq.
    destruct Hq as [->|Hq].
    + exists [k], v. split; [done|]. split; [by simpl; rewrite Hown | done].
    + apply (getFieldPaths_plain v Hv k q Hk) in Hq.
      destruct Hq as [[-> _]|(keys & v' & Hkeys & Hv' & ->)].
      * exists [k], v. split; [done|]. split; [by simpl; rewrite Hown | done].
      * exists (k :: keys), v'. split; [done|]. split; [by simpl; rewrite Hown|].
        by destruct keys.
  - intros (keys & v' & Hkeys & Hv' & ->).
    destruct keys as [|k keys]; [done|]. simpl in Hv'.
    destruct (getOwn k props) as [v|] eqn:Hown; [|done].
    apply getOwn_Some_elem_of in Hown as Hin. exists k, v. split; [done|].
    destruct (Hprops k v Hin) as [[Hk _]%andb_true_iff Hv].
    change (childPath "" k) with k.
    destruct keys as [|k' keys]; [by left|]. right.
    apply (getFieldPaths_plain v Hv k _ Hk). right.
    exists (k' :: keys), v'. by repeat split.
Qed.

(** ** Resolution on a plain shape *)

Lemma walkParts_valueAt s keys v :
  plainShape s = true ->
  valueAt s keys = Some v ->
  Forall (fun k => noDot k = true) keys
  /\ plainShape v = true
  /\ walkParts keys (NShape s) = Normal (Some (NShape v)).
Proof.
  revert s. induction keys as [|k keys IH]; intros s Hplain Hv; simpl in *.
  - inversion Hv; subst. by repeat split.
  - destruct s as [tag| |elems|props [p|]]; try done.
    destruct (getOwn k props) as [w|] eqn:Hown; [|done].
    destruct (plainShape_object props Hplain) as [Hnd Hprops].
    destruct (Hprops k w (getOwn_Some_elem_of _ _ _ Hown))
      as [[_ Hk]%andb_true_iff Hw].
    destruct (IH w Hw Hv) as (Hkeys & Hpv & Hwalk).
    split; [by constructor|]. split; [done|].
    assert (Hfind : findProperty (SObject props None) k = Some (NShape w))
      by (simpl; by rewrite Hown).
    by rewrite Hfind.
Qed.

Lemma getTypeAtPath_valueAt s keys v :
  plainShape s = true -> keys ≠ [] -> valueAt s keys = Some v ->
  getTypeAtPath s (Array_join "." keys) = Normal (classify (NShape v)).
Proof.
  intros Hplain Hkeys Hv.
  destruct (walkParts_valueAt s keys v Hplain Hv) as (Hdots & _ & Hwalk).
  unfold getTypeAtPath. rewrite String_split_join by done. by rewrite Hwalk.
Qed.

(** X1. In a shape whose objects have distinct keys, none of them empty or
    with a dot, and the ordinary prototype, the field paths are exactly the
    dot-joined chains of keys that lead to a value: every nested field is
    listed under its full path, and nothing else is. *)
Theorem X1_paths_are_the_key_chains (s : ShapeValue) (q : string) :
  plainShape s = true ->
  q ∈ getFieldPaths s ""
  <-> exists keys v, keys ≠ [] /\ valueAt s keys = Some v
        /\ q = Array_join "." keys.
Proof. apply getFieldPaths_plain_root. Qed.

Lemma X1_witness :
  "user.profile.bio"
  ∈ getFieldPaths
      (plain [("user", plain [("profile", plain [("bio", SString "string")])])])
      "".
Proof.
  apply (X1_paths_are_the_key_chains
           (plain [("user", plain [("profile", plain [("bio", SString "string")])])])
           "user.profile.bio").
  - vm_compute. reflexivity.
  - exists ["user"; "profile"; "bio"], (SString "string").
    split; [discriminate|]. split; reflexivity.
Defined.

(** X2. In such a shape, type resolution at a listed path lands on the
    value the key chain leads to: it answers the tag of a primitive,
    "array" for an array, "object" for an object and "unknown" for null,
    and never the "unknown" of a failed walk. *)
Theorem X2_resolution_lands_on_the_value (s : ShapeValue) (q : string) :
  plainShape s = true ->
  q ∈ getFieldPaths s "" ->
  exists keys v,
    q = Array_join "." keys
    /\ valueAt s keys = Some v
    /\ getTypeAtPath s q
       = Normal match v with
                | SString tag => tag
                | SArray _ => "array"
                | SObject _ _ => "object"
                | SNull => "unknown"
                end.
Proof.
  intros Hplain Hq.
  apply getFieldPaths_plain_root in Hq as (keys & v & Hkeys & Hv & ->);
    [|done].
  exists keys, v. split; [done|]. split; [done|].
  rewrite (getTypeAtPath_valueAt s keys v) by done. by destruct v.
Qed.

Lemma X2_witness :
  exists keys v,
    "user.tags" = Array_join "." keys
    /\ valueAt (plain [("user", plain [("tags", SArray [SString "string"])])]) keys
       = Some v
    /\ getTypeAtPath (plain [("user", plain [("tags", SArray [SString "string"])])])
         "user.tags"
       = Normal match v with
                | SString tag => tag
                | SArray _ => "array"
                | SObject _ _ => "object"
                | SNull => "unknown"
                end.
Proof.
  apply (X2_resolution_lands_on_the_value
           (plain [("user", plain [("tags", SArray [SString "string"])])])
           "user.tags").
  - vm_compute. reflexivity.
  - vm_compute. right. left.
Defined.

(** ** What the analysis can report *)

Lemma occurrenceCount_pos l p : p ∈ fieldUniverse l -> 1 <= occurrenceCount l p.
Proof.
  intros (s & Hs & Hp)%elem_of_fieldUniverse. unfold occurrenceCount, containing.
  assert (Hin : s ∈ filter (fun s => p ∈ pathsOf s) l)
    by (by apply list_elem_of_filter).
  destruct (filter _ l); [by apply elem_of_nil in Hin | simpl; lia].
Qed.

Lemma length_firstOccurrences l : length (firstOccurrences l) <= length l.
Proof.
  induction l as [|x l IH]; simpl; [done|].
  pose proof (length_filter (fun y => y ≠ x) (firstOccurrences l)). lia.
Qed.

Lemma length_typeSet l p : length (typeSet l p) <= occurrenceCount l p.
Proof.
  unfold typeSet, occurrenceCount.
  etrans; [apply length_firstOccurrences|]. by rewrite length_fmap.
Qed.

Lemma occurrenceCount_le l p : occurrenceCount l p <= length l.
Proof. apply length_filter. Qed.

Lemma length_fieldMessages l p : length (fieldMessages l p) <= 2.
Proof.
  unfold fieldMessages.
  by destruct (occurrenceCount l p <? length l);
    destruct (1 <? length (typeSet l p)); simpl; lia.
Qed.

Lemma length_all_fieldMessages l ps :
  length (concat (fieldMessages l <$> ps)) <= 2 * length ps.
Proof.
  induction ps as [|p ps IH]; [simpl; lia|].
  rewrite fmap_cons.
  change (concat (fieldMessages l p :: (fieldMessages l <$> ps)))
    with (fieldMessages l p ++ concat (fieldMessages l <$> ps)).
  rewrite length_app. pose proof (length_fieldMessages l p).
  change (length (p :: ps)) with (S (length ps)). lia.
Qed.

(** X3. The analysis returns for every endpoint: neither the two
    non-null assertions on the map of type sets nor type resolution can
    throw.  The result names the endpoint "<method> <path>", hands the
    shapes back with their count, and holds at most two messages per path
    of the field universe. *)
Theorem X3_analysis_always_returns (e : GroupedEndpoint) :
  exists r,
    analyzeEndpointDiffs e = Normal r
    /\ endpoint r = method e +:+ " " +:+ path e
    /\ analysisShapes r = shapes e
    /\ totalShapes r = length (shapes e)
    /\ length (inconsistencies r) <= 2 * length (fieldUniverse (shapes e)).
Proof.
  destruct (decide (length (shapes e) <= 1)) as [H|H].
  - eexists. split; [by apply analyzeEndpointDiffs_short|]. simpl.
    repeat split. lia.
  - eexists. split; [apply analyzeEndpointDiffs_spec; lia|]. simpl.
    repeat split. apply length_all_fieldMessages.
Qed.

(** X4. A field is reported missing in at least one and in fewer than all
    of the N >= 2 responses: the count in a missing-field message is
    N minus the number of shapes that have the path, which is never zero
    for a path of the field universe. *)
Theorem X4_missing_counts_are_in_range (e : GroupedEndpoint) :
  2 <= length (shapes e) ->
  exists r,
    analyzeEndpointDiffs e = Normal r
    /\ inconsistencies r = render <$> findings (shapes e)
    /\ forall p k,
         MissingField p k ∈ findings (shapes e) ->
         1 <= k < length (shapes e)
         /\ k + length (filter (fun s => p ∈ getFieldPaths s "") (shapes e))
            = length (shapes e).
Proof.
  intros Hlen. eexists. split; [by apply analyzeEndpointDiffs_spec|]. simpl.
  split; [by rewrite render_findings|].
  intros p k (Hp & Hocc & ->)%elem_of_findings_missing.
  pose proof (occurrenceCount_pos _ _ Hp).
  unfold occurrenceCount, containing, pathsOf in *. lia.
Qed.

Lemma X4_witness :
  exists r,
    analyzeEndpointDiffs (endpointOf "GET" "/users" exampleShapes) = Normal r
    /\ forall p k,
         MissingField p k ∈ findings exampleShapes -> 1 <= k < 2.
Proof.
  destruct (X4_missing_counts_are_in_range
              (endpointOf "GET" "/users" exampleShapes))
    as (r & Hr & _ & Hrange); [simpl; lia|].
  exists r. split; [exact Hr|]. intros p k H. apply (Hrange p k H).
Defined.

(** X5. The types listed in a type-inconsistency message are pairwise
    distinct, at least two, and no more than the shapes that have the path;
    each of them is resolved in one of those shapes. *)
Theorem X5_listed_types_are_distinct (e : GroupedEndpoint) :
  2 <= length (shapes e) ->
  exists r,
    analyzeEndpointDiffs e = Normal r
    /\ inconsistencies r = render <$> findings (shapes e)
    /\ forall p ts,
         TypeConflict p ts ∈ findings (shapes e) ->
         NoDup ts
         /\ 2 <= length ts
            <= length (filter (fun s => p ∈ getFieldPaths s "") (shapes e))
         /\ forall tag,
              tag ∈ ts ->
              exists s, s ∈ shapes e /\ p ∈ getFieldPaths s ""
                        /\ getTypeAtPath s p = Normal tag.
Proof.
  intros Hlen. eexists. split; [by apply analyzeEndpointDiffs_spec|]. simpl.
  split; [by rewrite render_findings|].
  intros p ts (Hp & Hsize & ->)%elem_of_findings_conflict.
  split; [apply NoDup_firstOccurrences|]. split.
  - pose proof (length_typeSet (shapes e) p).
    unfold occurrenceCount, containing, pathsOf in *. lia.
  - intros tag. unfold typeSet, containing.
    rewrite elem_of_firstOccurrences, list_elem_of_fmap.
    intros (s & -> & [Hs Hl]%list_elem_of_filter). exists s.
    repeat split; try done. apply getTypeAtPath_typeAtPath.
Qed.

Lemma X5_witness :
  exists r,
    analyzeEndpointDiffs (endpointOf "GET" "/users" exampleShapes) = Normal r
    /\ forall p ts, TypeConflict p ts ∈ findings exampleShapes -> NoDup ts.
Proof.
  destruct (X5_listed_types_are_distinct
              (endpointOf "GET" "/users" exampleShapes))
    as (r & Hr & _ & Hfacts); [simpl; lia|].
  exists r. split; [exact Hr|]. intros p ts H. apply (Hfacts p ts H).
Defined.

Lemma containing_only before s after p :
  p ∈ pathsOf s ->
  (forall s', s' ∈ before ++ after -> p ∉ pathsOf s') ->
  containing p (before ++ s :: after) = [s].
Proof.
  intros Hs Hothers. unfold containing.
  assert (Hnone : forall l, (forall s', s' ∈ l -> p ∉ pathsOf s') ->
                            filter (fun s => p ∈ pathsOf s) l = []).
  { induction l as [|x l IH]; intros Hl; [done|].
    rewrite filter_cons_False by (apply Hl; left).
    apply IH. intros s' Hs'. apply Hl. by right. }
  rewrite filter_app, filter_cons_True by done.
  rewrite (Hnone before), (Hnone after); [done| |];
    intros s' Hs'; apply Hothers; apply elem_of_app; auto.
Qed.

(** X6. A field that only one of the N >= 2 responses has is reported as
    missing in the N - 1 others, and never with inconsistent types: there is
    no report of an added field. *)
Theorem X6_field_of_one_response_is_missing_in_the_others
    (e : GroupedEndpoint) (before after : list ShapeValue) (s : ShapeValue)
    (p : string) :
  shapes e = before ++ s :: after ->
  2 <= length (shapes e) ->
  p ∈ getFieldPaths s "" ->
  (forall s', s' ∈ before ++ after -> p ∉ getFieldPaths s' "") ->
  exists r,
    analyzeEndpointDiffs e = Normal r
    /\ missingMessage p (length (shapes e) - 1) ∈ inconsistencies r
    /\ MissingField p (length (shapes e) - 1) ∈ findings (shapes e)
    /\ forall ts, TypeConflict p ts ∉ findings (shapes e).
Proof.
  intros Hshapes Hlen Hs Hothers.
  assert (Hocc : occurrenceCount (shapes e) p = 1)
    by (unfold occurrenceCount; by rewrite Hshapes, containing_only).
  assert (Hp : p ∈ fieldUniverse (shapes e)).
  { apply elem_of_fieldUniverse. exists s. split; [|done].
    rewrite Hshapes. apply elem_of_app. right. left. }
  assert (Hmissing : MissingField p (length (shapes e) - 1) ∈ findings (shapes e)).
  { apply elem_of_findings_missing. rewrite Hocc. repeat split; [done|lia]. }
  eexists. split; [by apply analyzeEndpointDiffs_spec|]. simpl.
  split; [|split; [done|]].
  - rewrite <- render_findings.
    change (missingMessage p (length (shapes e) - 1))
      with (render (MissingField p (length (shapes e) - 1))).
    by apply list_elem_of_fmap_2.
  - intros ts (_ & Hsize & _)%elem_of_findings_conflict.
    pose proof (length_typeSet (shapes e) p). lia.
Qed.

Lemma X6_witness :
  exists r,
    analyzeEndpointDiffs
      (endpointOf "GET" "/users"
         [plain [("id", SString "number")];
          plain [("id", SString "number"); ("address", SString "string")];
          plain [("id", SString "number")]])
    = Normal r
    /\ "field 'address' missing in 2 responses" ∈ inconsistencies r.
Proof.
  destruct (X6_field_of_one_response_is_missing_in_the_others
              (endpointOf "GET" "/users"
                 [plain [("id", SString "number")];
                  plain [("id", SString "number"); ("address", SString "string")];
                  plain [("id", SString "number")]])
              [plain [("id", SString "number")]]
              [plain [("id", SString "number")]]
              (plain [("id", SString "number"); ("address", SString "string")])
              "address")
    as (r & Hr & Hm & _).
  - reflexivity.
  - simpl. lia.
  - vm_compute. right. left.
  - intros s' Hs'. vm_compute in Hs'. vm_compute.
    repeat (apply elem_of_cons in Hs' as [->|Hs']);
      try (by apply elem_of_nil in Hs');
      intros H; repeat (apply elem_of_cons in H as [H|H]; [discriminate|]);
      by apply elem_of_nil in H.
  - exists r. split; [exact Hr | exact Hm].
Defined.

(** ** Keys with a dot *)

Lemma getTypeAtPath_dotted props p first second rest :
  String_split "." p = first :: second :: rest ->
  first ≠ "__proto__" ->
  getOwn first props = None ->
  getTypeAtPath (SObject props None) p = Normal "unknown".
Proof.
  intros Hsplit Hfirst Hown. unfold getTypeAtPath. rewrite Hsplit. simpl.
  rewrite Hown.
  assert (E : strictEq first "__proto__" = false)
    by (apply not_true_is_false; by rewrite strictEq_true).
  by rewrite E.
Qed.

Lemma length_firstOccurrences_constant (l : list string) (c : string) :
  (forall x, x ∈ l -> x = c) -> length (firstOccurrences l) <= 1.
Proof.
  intros Hall.
  assert (Hsub : forall x, x ∈ firstOccurrences l -> x = c)
    by (intros x Hx; apply Hall; by apply elem_of_firstOccurrences).
  pose proof (NoDup_firstOccurrences l) as Hnd.
  destruct (firstOccurrences l) as [|x [|y l']]; simpl; try lia.
  exfalso. apply NoDup_cons in Hnd as [Hx _]. apply Hx.
  rewrite (Hsub x) by left. rewrite <- (Hsub y) by (right; left). left.
Qed.

(** X7. Type drift under a key that contains a dot goes unreported.  The
    path of such a key is the key itself; resolution splits it at the dot
    and looks for the part before the dot, so when no shape has a field of
    that name every shape answers "unknown" and the path never gets a
    type-inconsistency message, whatever the types under the key are. *)
Theorem X7_type_drift_under_dotted_key_is_not_reported
    (e : GroupedEndpoint) (p first second : string) (rest : list string) :
  String_split "." p = first :: second :: rest ->
  first ≠ "__proto__" ->
  Forall (fun s => exists props, s = SObject props None
                                 /\ getOwn first props = None) (shapes e) ->
  (forall s, s ∈ shapes e -> getTypeAtPath s p = Normal "unknown")
  /\ forall ts, TypeConflict p ts ∉ findings (shapes e).
Proof.
  intros Hsplit Hfirst Hall. rewrite Forall_forall in Hall.
  assert (Hunknown : forall s, s ∈ shapes e -> getTypeAtPath s p = Normal "unknown").
  { intros s (props & -> & Hown)%Hall. by eapply getTypeAtPath_dotted. }
  split; [done|].
  intros ts (_ & Hsize & _)%elem_of_findings_conflict.
  assert (length (typeSet (shapes e) p) <= 1); [|lia].
  apply (length_firstOccurrences_constant _ "unknown").
  intros tag (s & -> & [_ Hs]%list_elem_of_filter)%list_elem_of_fmap.
  unfold typeAtPath. by rewrite (Hunknown s Hs).
Qed.

Lemma X7_witness :
  inconsistencies <$>
    analyzeEndpointDiffs
      (endpointOf "GET" "/config"
         [plain [("a.b", SString "string")]; plain [("a.b", SString "number")]])
  = Normal []
  /\ forall ts,
       TypeConflict "a.b" ts
       ∉ findings [plain [("a.b", SString "string")];
                   plain [("a.b", SString "number")]].
Proof.
  split; [vm_compute; reflexivity|].
  apply (X7_type_drift_under_dotted_key_is_not_reported
           (endpointOf "GET" "/config"
              [plain [("a.b", SString "string")];
               plain [("a.b", SString "number")]])
           "a.b" "a" "b" []).
  - reflexivity.
  - discriminate.
  - repeat constructor; eexists; split; reflexivity.
Defined.

(** * Further properties of the extractor *)

(** X8. The tags of primitives: null gives "null", undefined "undefined",
    every number "number" (integer or not, infinite or NaN), a string
    "string", a boolean "boolean", and a value of a kind the extractor has
    no name for (a bigint, a symbol) "unknown". *)
Theorem X8_primitive_tags :
  extractShape JNull = Normal (SString "null")
  /\ extractShape JUndefined = Normal (SString "undefined")
  /\ (forall n, extractShape (JNumber n) = Normal (SString "number"))
  /\ (forall s, extractShape (JString s) = Normal (SString "string"))
  /\ (forall b, extractShape (JBoolean b) = Normal (SString "boolean"))
  /\ (forall z, extractShape (JBigInt z) = Normal (SString "unknown"))
  /\ (forall d, extractShape (JSymbol d) = Normal (SString "unknown")).
Proof. repeat split; try reflexivity. apply extractShape_number. Qed.


(** ** The shape carries no data *)

Lemma getOwn_map {V W : Type} (g : V -> W) key (props : list (string * V)) :
  getOwn key (map (fun kv => (kv.1, g kv.2)) props) = g <$> getOwn key props.
Proof.
  induction props as [|[k v] props IH]; simpl; [done|].
  by destruct (strictEq k key).
Qed.

Lemma hasOwnProperty_call_map (g : JsValue -> JsValue) props key :
  hasOwnProperty_call (map (fun kv => (kv.1, g kv.2)) props) key
  = hasOwnProperty_call props key.
Proof.
  unfold hasOwnProperty_call, hasOwn. rewrite !getOwn_map.
  destruct (getOwn "hasOwnProperty" props); simpl; [done|].
  by destruct (getOwn key props).
Qed.

Lemma extractProperties_eraseData props entries shape :
  Forall (fun kv => extractShape (eraseData kv.2) = extractShape kv.2) entries ->
  extractProperties extractShape
    (map (fun kv => (kv.1, eraseData kv.2)) props)
    (map (fun kv => (kv.1, eraseData kv.2)) entries) shape
  = extractProperties extractShape props entries shape.
Proof.
  revert shape. induction entries as [|[key value] rest IH]; intros shape Hall;
    [done|].
  apply Forall_cons in Hall as [Hvalue Hall]. simpl in *.
  rewrite hasOwnProperty_call_map.
  destruct (hasOwnProperty_call props key) as [[|]|err]; simpl; [|by apply IH|done].
  rewrite !extractShape_dispatch, Hvalue.
  destruct (extractShape value) as [v|err]; simpl; [by apply IH | done].
Qed.

Lemma extractShape_eraseData value :
  extractShape (eraseData value) = extractShape value.
Proof.
  induction value as [| |b|n|s|z|d|elems IH|props IH]
    using JsValue_nested_ind; try reflexivity.
  - simpl eraseData. by rewrite !extractShape_number.
  - simpl eraseData. rewrite !extractShape_array.
    destruct elems as [|first rest]; [done|].
    apply Forall_cons in IH as [IH _]. simpl map.
    by rewrite !extractArrayShape_cons, IH.
  - simpl eraseData. rewrite !extractShape_object.
    by apply extractProperties_eraseData.
Qed.

(** X10. The shape carries no data: two values that differ only in their
    primitive data (the strings, numbers and booleans they hold, not the
    kinds, keys or nesting) have the same shape, or fail alike. *)
Theorem X10_shape_depends_on_structure_only (v w : JsValue) :
  eraseData v = eraseData w -> extractShape v = extractShape w.
Proof.
  intros H. by rewrite <- (extractShape_eraseData v), H, extractShape_eraseData.
Qed.

Lemma X10_witness :
  extractShape (JObject [("name", JString "John"); ("age", JNumber (Finite 30))])
  = extractShape (JObject [("name", JString "Jane"); ("age", JNumber (Finite (5 # 2)))]).
Proof.
  apply (X10_shape_depends_on_structure_only
           (JObject [("name", JString "John"); ("age", JNumber (Finite 30))])
           (JObject [("name", JString "Jane"); ("age", JNumber (Finite (5 # 2)))])).
  reflexivity.
Defined.

(** ** The form of an extracted shape *)

Lemma forallb_defineOwn (f : ShapeValue -> bool) key v props :
  f v = true ->
  forallb (fun kv => f kv.2) props = true ->
  forallb (fun kv => f kv.2) (defineOwn key v props) = true.
Proof.
  intros Hv. induction props as [|[k w] props IH]; simpl.
  - by rewrite Hv.
  - intros [Hw Hrest]%andb_true_iff.
    destruct (strictEq k key); simpl.
    + by rewrite Hv, Hrest.
    + by rewrite Hw, IH.
Qed.

Lemma extractedForm_setProperty props proto key v :
  extractedForm (SObject props proto) = true ->
  extractedForm v = true ->
  exists props' proto',
    setProperty (SObject props proto) key v = SObject props' proto'
    /\ extractedForm (SObject props' proto') = true.
Proof.
  intros Hshape Hv. unfold setProperty.
  destruct (strictEq key "__proto__" && negb (hasOwn key props)
            && inheritsFromObjectPrototype (SObject props proto)).
  - destruct v as [tag| |elems|vprops vproto]; try done; eauto.
    + exists props, (Some (SArray elems)). split; [done|].
      simpl in Hshape. apply andb_true_iff in Hshape as [Hprops _].
      simpl. simpl in Hv. by rewrite Hprops, Hv.
    + exists props, (Some (SObject vprops vproto)). split; [done|].
      simpl in Hshape. apply andb_true_iff in Hshape as [Hprops _].
      simpl. simpl in Hv. by rewrite Hprops, Hv.
  - exists (defineOwn key v props), proto. split; [done|].
    simpl in *. apply andb_true_iff in Hshape as [Hprops Hproto].
    by rewrite forallb_defineOwn, Hproto.
Qed.

Lemma extractProperties_cons recurse props key value rest shape :
  extractProperties recurse props ((key, value) :: rest) shape
  = (own ← hasOwnProperty_call props key;
     if own : bool then
       v ← (if strictEq (getTypeName value) "object" then recurse value
            else if strictEq (getTypeName value) "array" then recurse value
            else Normal (SString (getTypeName value)));
       extractProperties recurse props rest (setProperty shape key v)
     else extractProperties recurse props rest shape).
Proof. reflexivity. Qed.

Lemma setProperty_ordinary props proto key v :
  key ≠ "__proto__" ->
  setProperty (SObject props proto) key v = SObject (defineOwn key v props) proto.
Proof.
  intros Hkey. unfold setProperty.
  assert (E : strictEq key "__proto__" = false)
    by (apply not_true_is_false; by rewrite strictEq_true).
  by rewrite E.
Qed.

Lemma extractedForm_properties props entries shapeProps shapeProto result :
  Forall (fun kv => forall s, extractShape kv.2 = Normal s
                              -> extractedForm s = true) entries ->
  extractedForm (SObject shapeProps shapeProto) = true ->
  extractProperties extractShape props entries (SObject shapeProps shapeProto)
  = Normal result ->
  extractedForm result = true.
Proof.
  revert shapeProps shapeProto.
  induction entries as [|[key value] rest IH]; intros shapeProps shapeProto
    Hall Hshape.
  - by intros [= <-].
  - apply Forall_cons in Hall as [Hvalue Hall]. simpl in Hvalue.
    rewrite extractProperties_cons.
    destruct (hasOwnProperty_call props key) as [[|]|err];
      [|by apply IH|done].
    rewrite bind_Normal, extractShape_dispatch.
    destruct (extractShape value) as [v|err] eqn:Ev; [|done].
    rewrite bind_Normal.
    destruct (extractedForm_setProperty shapeProps shapeProto key v Hshape
                (Hvalue v eq_refl)) as (props' & proto' & -> & Hform).
    by apply IH.
Qed.

Lemma extractedForm_extractShape value shape :
  extractShape value = Normal shape -> extractedForm shape = true.
Proof.
  revert shape.
  induction value as [| |b|n|s|z|d|elems IH|props IH]
    using JsValue_nested_ind; intros shape;
    try (by intros [= <-]).
  - rewrite extractShape_number. by intros [= <-].
  - rewrite extractShape_array. destruct elems as [|first rest].
    + by intros [= <-].
    + apply Forall_cons in IH as [IH _]. rewrite extractArrayShape_cons.
      destruct (extractShape first) as [s|err]; simpl; [|done].
      intros [= <-]. simpl. by apply IH.
  - rewrite extractShape_object. by apply extractedForm_properties.
Qed.

(** X11. Every shape the extractor returns has the same form: its tags
    are among "string", "number", "boolean", "null", "undefined" and
    "unknown" (never "object" or "array"), each of its arrays has exactly
    one element, and it holds no null. *)
Theorem X11_extracted_shapes_are_well_formed (value : JsValue) (shape : ShapeValue) :
  extractShape value = Normal shape -> extractedForm shape = true.
Proof. apply extractedForm_extractShape. Qed.

Lemma X11_witness :
  extractedForm
    (SObject [("tags", SArray [SString "string"]); ("n", SString "null")] None)
  = true.
Proof.
  apply (X11_extracted_shapes_are_well_formed
           (JObject [("tags", JArray [JString "a"; JNumber (Finite 1)]);
                     ("n", JNull)])).
  vm_compute. reflexivity.
Defined.

(** ** The keys of an extracted object *)

Lemma defineOwn_fresh {V : Type} key (v : V) props :
  key ∉ props.*1 -> defineOwn key v props = props ++ [(key, v)].
Proof.
  induction props as [|[k w] props IH]; simpl; [done|].
  intros H. apply not_elem_of_cons in H as [Hk H].
  destruct (strictEq k key) eqn:E.
  - apply strictEq_true in E. by subst.
  - by rewrite IH.
Qed.

Lemma extractProperties_keys props entries acc result :
  NoDup (acc.*1 ++ entries.*1) ->
  "__proto__" ∉ entries.*1 ->
  (forall kv, kv ∈ entries -> kv ∈ props) ->
  extractProperties extractShape props entries (SObject acc None)
  = Normal result ->
  exists new,
    result = SObject (acc ++ new) None
    /\ new.*1 = entries.*1
    /\ Forall2 (fun kv ks => extractShape kv.2 = Normal ks.2) entries new.
Proof.
  revert acc. induction entries as [|[key value] rest IH];
    intros acc Hnd Hproto Hin.
  - intros [= <-]. exists []. by rewrite app_nil_r.
  - rewrite extractProperties_cons. unfold hasOwnProperty_call.
    destruct (getOwn "hasOwnProperty" props) eqn:Ehop; [done|].
    rewrite bind_Normal.
    rewrite (hasOwn_elem_of key value props) by (apply Hin; left).
    rewrite extractShape_dispatch.
    destruct (extractShape value) as [v|err] eqn:Ev; [|done].
    rewrite bind_Normal.
    simpl in Hproto. apply not_elem_of_cons in Hproto as [Hkey Hproto].
    rewrite setProperty_ordinary by congruence.
    simpl in Hnd. pose proof Hnd as Hnd0.
    apply NoDup_app in Hnd as (Hacc & Hdisj & Hrest).
    apply NoDup_cons in Hrest as [Hfresh Hrest].
    rewrite defineOwn_fresh by (intros H; apply (Hdisj key H); left).
    intros Hrun. apply IH in Hrun as (new & -> & Hkeys & Hall).
    + exists ((key, v) :: new). rewrite <- app_assoc. split; [done|].
      split; [by rewrite !fmap_cons, Hkeys|]. by constructor.
    + rewrite fmap_app. simpl. rewrite <- app_assoc. exact Hnd0.
    + done.
    + intros kv Hkv. apply Hin. by right.
Qed.

(** X12. Object extraction goes key by key.  For an object with distinct
    keys, none of them "__proto__", the extracted shape is an object with
    the same keys in the same order, each holding the shape extracted from
    the value of that key. *)
Theorem X12_object_shape_has_the_keys_of_the_object
    (props : list (string * JsValue)) (shape : ShapeValue) :
  NoDup props.*1 ->
  "__proto__" ∉ props.*1 ->
  extractShape (JObject props) = Normal shape ->
  exists fields,
    shape = SObject fields None
    /\ fields.*1 = props.*1
    /\ Forall2 (fun kv ks => extractShape kv.2 = Normal ks.2) props fields.
Proof.
  intros Hnd Hproto. rewrite extractShape_object. intros Hrun.
  by apply (extractProperties_keys props props []) in Hrun.
Qed.

Lemma X12_witness :
  exists fields,
    SObject [("b", SString "number"); ("a", SArray [SString "unknown"])] None
    = SObject fields None
    /\ fields.*1 = ["b"; "a"]
    /\ Forall2 (fun kv ks => extractShape kv.2 = Normal ks.2)
         [("b", JNumber (Finite 1)); ("a", JArray [])] fields.
Proof.
  apply (X12_object_shape_has_the_keys_of_the_object
           [("b", JNumber (Finite 1)); ("a", JArray [])]).
  - vm_compute. repeat constructor; intros H;
      repeat (apply elem_of_cons in H as [H|H]; [discriminate|]);
      by apply elem_of_nil in H.
  - intros H. repeat (apply elem_of_cons in H as [H|H]; [discriminate|]).
    by apply elem_of_nil in H.
  - vm_compute. reflexivity.
Defined.

(** ** A property named __proto__ *)

Lemma getOwn_cons {V : Type} key k (v : V) props :
  getOwn key ((k, v) :: props)
  = if strictEq k key then Some v else getOwn key props.
Proof. reflexivity. Qed.

Lemma getOwn_filter_other {V : Type} key (props : list (string * V)) :
  key ≠ "__proto__" ->
  getOwn key (filter (fun kv => kv.1 ≠ "__proto__") props) = getOwn key props.
Proof.
  intros Hkey. induction props as [|[k v] props IH]; [done|].
  destruct (decide (k = "__proto__")) as [->|Hk].
  - rewrite filter_cons_False by (simpl; auto). rewrite getOwn_cons.
    assert (E : strictEq "__proto__" key = false)
      by (apply not_true_is_false; rewrite strictEq_true; congruence).
    by rewrite E.
  - rewrite filter_cons_True by done. by rewrite !getOwn_cons, IH.
Qed.

Lemma extractShape_primitive value :
  isPrimitive value = true ->
  exists tag, extractShape value = Normal (SString tag).
Proof.
  destruct value; try done; intros _; try (eexists; reflexivity).
  eexists. apply extractShape_number.
Qed.

Lemma elem_of_defineOwn_keys {V : Type} k key (v : V) props :
  k ∈ (defineOwn key v props).*1 -> k = key \/ k ∈ props.*1.
Proof.
  induction props as [|[k' w] props IH].
  - intros H. apply list_elem_of_singleton in H. by left.
  - change (defineOwn key v ((k', w) :: props))
      with (if strictEq k' key then (k', v) :: props
            else (k', w) :: defineOwn key v props).
    destruct (strictEq k' key); rewrite !fmap_cons, !elem_of_cons; simpl.
    + naive_solver.
    + intros [->|H]; [by right; left|]. destruct (IH H); auto.
Qed.

Lemma extractProperties_drops_proto props entries acc :
  getOwn "hasOwnProperty" props = None ->
  (forall v, ("__proto__", v) ∈ entries -> isPrimitive v = true) ->
  "__proto__" ∉ acc.*1 ->
  extractProperties extractShape props entries (SObject acc None)
  = extractProperties extractShape
      (filter (fun kv => kv.1 ≠ "__proto__") props)
      (filter (fun kv => kv.1 ≠ "__proto__") entries) (SObject acc None).
Proof.
  intros Hhop. revert acc.
  induction entries as [|[key value] rest IH]; intros acc Hprim Hacc; [done|].
  rewrite extractProperties_cons. unfold hasOwnProperty_call at 1.
  rewrite Hhop, bind_Normal.
  assert (Hrest : forall v, ("__proto__", v) ∈ rest -> isPrimitive v = true)
    by (intros v Hv; apply Hprim; by right).
  destruct (decide (key = "__proto__")) as [->|Hkey].
  - rewrite filter_cons_False by (simpl; auto).
    destruct (hasOwn "__proto__" props); [|by apply IH].
    rewrite extractShape_dispatch.
    destruct (extractShape_primitive value) as [tag ->]; [apply Hprim; left|].
    rewrite bind_Normal.
    assert (Hset : setProperty (SObject acc None) "__proto__" (SString tag)
                   = SObject acc None).
    { unfold setProperty, hasOwn.
      destruct (getOwn "__proto__" acc) eqn:E; [|done].
      apply getOwn_Some_elem_of in E. exfalso. apply Hacc.
      apply list_elem_of_fmap. by eexists (_, _). }
    rewrite Hset. by apply IH.
  - rewrite filter_cons_True by done. rewrite extractProperties_cons.
    unfold hasOwnProperty_call, hasOwn.
    rewrite !getOwn_filter_other by done. rewrite Hhop, bind_Normal.
    destruct (getOwn key props); [|by apply IH].
    rewrite extractShape_dispatch.
    destruct (extractShape value) as [v|err]; [|done]. rewrite !bind_Normal.
    rewrite setProperty_ordinary by done. apply IH; [done|].
    intros [?|?]%elem_of_defineOwn_keys; [congruence | done].
Qed.

(** X13. A property named "__proto__" that holds a primitive leaves no
    trace in the shape: the assignment [shape["__proto__"] = tag] goes to
    the prototype setter, which ignores a string.  Extraction gives the same
    result as on the object without that property. *)
Theorem X13_primitive_proto_property_is_dropped
    (props : list (string * JsValue)) :
  (forall v, ("__proto__", v) ∈ props -> isPrimitive v = true) ->
  extractShape (JObject props)
  = extractShape (JObject (filter (fun kv => kv.1 ≠ "__proto__") props)).
Proof.
  intros Hprim. rewrite !extractShape_object.
  destruct (getOwn "hasOwnProperty" props) as [hop|] eqn:Hhop.
  - assert (Hhop' : getOwn "hasOwnProperty"
                      (filter (fun kv => kv.1 ≠ "__proto__") props) = Some hop)
      by (by rewrite getOwn_filter_other).
    destruct props as [|[k v] props]; [done|].
    rewrite extractProperties_cons. unfold hasOwnProperty_call at 1.
    rewrite Hhop.
    destruct (filter (fun kv => kv.1 ≠ "__proto__") ((k, v) :: props))
      as [|[k' v'] rest] eqn:E; [done|].
    rewrite extractProperties_cons. unfold hasOwnProperty_call.
    by rewrite Hhop'.
  - apply extractProperties_drops_proto; try done. apply not_elem_of_nil.
Qed.

Lemma X13_witness :
  extractShape (JObject [("__proto__", JNumber (Finite 1)); ("a", JString "x")])
  = Normal (SObject [("a", SString "string")] None).
Proof.
  rewrite (X13_primitive_proto_property_is_dropped
             [("__proto__", JNumber (Finite 1)); ("a", JString "x")]).
  - vm_compute. reflexivity.
  - intros v Hv.
    repeat (apply elem_of_cons in Hv as [Hv|Hv];
            [inversion Hv; subst; try reflexivity; try discriminate|]).
    by apply elem_of_nil in Hv.
Defined.

(** * Properties of the handler of GET /api/diffs *)

(** ** Prefixes and occurrences *)

Lemma Ascii_eqb_refl c : Ascii.eqb c c = true.
Proof. by apply Ascii.eqb_eq. Qed.

Lemma Ascii_eqb_false c d : c ≠ d -> Ascii.eqb c d = false.
Proof. intros H. apply not_true_is_false. by rewrite Ascii.eqb_eq. Qed.

Lemma prefix_cons a p b s :
  String.prefix (String a p) (String b s)
  = Ascii.eqb a b && String.prefix p s.
Proof.
  simpl. destruct (ascii_dec a b) as [->|H].
  - by rewrite Ascii_eqb_refl.
  - by rewrite Ascii_eqb_false.
Qed.

Lemma prefix_nil_l s : String.prefix EmptyString s = true.
Proof. by destruct s. Qed.

Lemma prefix_append p s : String.prefix p (p +:+ s) = true.
Proof.
  induction p as [|a p IH]; [apply prefix_nil_l|].
  by rewrite append_cons, prefix_cons, Ascii_eqb_refl.
Qed.

Lemma prefix_true p s : String.prefix p s = true -> exists b, s = p +:+ b.
Proof.
  revert s. induction p as [|a p IH]; intros s; [by exists s|].
  destruct s as [|c s]; [done|]. rewrite prefix_cons.
  intros [Hc Hp]%andb_true_iff. apply Ascii.eqb_eq in Hc. subst c.
  destruct (IH s Hp) as [b ->]. by exists b.
Qed.

Lemma String_includes_unfold s sub :
  String_includes s sub
  = String.prefix sub s
    || match s with
       | EmptyString => false
       | String _ rest => String_includes rest sub
       end.
Proof. by destruct s. Qed.

Lemma String_includes_append a sub b :
  String_includes (a +:+ sub +:+ b) sub = true.
Proof.
  induction a as [|c a IH]; rewrite String_includes_unfold.
  - change (EmptyString +:+ sub +:+ b) with (sub +:+ b).
    by rewrite prefix_append.
  - rewrite append_cons, IH. apply orb_true_r.
Qed.

Lemma String_includes_true s sub :
  String_includes s sub = true -> exists a b, s = a +:+ sub +:+ b.
Proof.
  induction s as [|c s IH]; rewrite String_includes_unfold;
    intros [H|H]%orb_true_iff; try done.
  - apply prefix_true in H as [b ->]. by exists EmptyString, b.
  - apply prefix_true in H as [b ->]. by exists EmptyString, b.
  - destruct (IH H) as (a & b & ->). by exists (String c a), b.
Qed.

Lemma lacks_append c a b : lacks c (a +:+ b) = lacks c a && lacks c b.
Proof.
  induction a as [|d a IH]; [done|].
  rewrite append_cons. simpl. by rewrite IH, andb_assoc.
Qed.

(** An occurrence of [sub] cannot sit across a character that [sub] does
    not have. *)
Lemma prefix_across c sub x y :
  lacks c sub = true ->
  String.prefix sub (x +:+ String c y) = String.prefix sub x.
Proof.
  revert x. induction sub as [|a sub IH]; intros x Hc.
  - by rewrite !prefix_nil_l.
  - simpl in Hc. apply andb_true_iff in Hc as [Ha Hsub].
    apply negb_true_iff in Ha. destruct x as [|d x].
    + change (EmptyString +:+ String c y) with (String c y).
      rewrite prefix_cons, Ha. by destruct sub.
    + rewrite append_cons, !prefix_cons. by rewrite IH.
Qed.

Lemma String_includes_across c sub x y :
  lacks c sub = true ->
  String_includes (x +:+ String c y) sub
  = String_includes x sub || String_includes y sub.
Proof.
  intros Hc. induction x as [|d x IH].
  - change (EmptyString +:+ String c y) with (String c y).
    rewrite (String_includes_unfold (String c y)),
      (String_includes_unfold EmptyString).
    change (String c y) with (EmptyString +:+ String c y) at 1.
    by rewrite prefix_across, orb_false_r.
  - rewrite append_cons, (String_includes_unfold (String d _)),
      (String_includes_unfold (String d x)), IH.
    change (String d (x +:+ String c y)) with (String d x +:+ String c y).
    by rewrite prefix_across, orb_assoc.
Qed.

(** ** The two regular expressions *)

Lemma stripPrefix_append p s : stripPrefix p (p +:+ s) = Some s.
Proof.
  induction p as [|a p IH]; [by destruct s|].
  rewrite append_cons. simpl. by rewrite Ascii_eqb_refl.
Qed.

Lemma spanNotQuote_append group rest :
  lacks "'" group = true ->
  spanNotQuote (group +:+ String "'" rest) = (group, String "'" rest).
Proof.
  induction group as [|c group IH]; [done|].
  simpl. intros [Hc Hgroup]%andb_true_iff. apply negb_true_iff in Hc.
  by rewrite Hc, IH.
Qed.

Lemma spanNotQuote_lacks s :
  lacks "'" (spanNotQuote s).1 = true.
Proof.
  induction s as [|c s IH]; [done|]. simpl.
  destruct (Ascii.eqb c "'") eqn:E; [done|].
  destruct (spanNotQuote s) as [run after]. simpl in *. by rewrite E, IH.
Qed.

Lemma matchFieldHere_message tail group rest :
  lacks "'" group = true -> truthy group = true ->
  matchFieldHere (String "'" tail)
    ("field '" +:+ group +:+ String "'" tail +:+ rest)
  = Some (group, rest).
Proof.
  intros Hq Hne. unfold matchFieldHere. rewrite stripPrefix_append.
  rewrite append_cons, spanNotQuote_append by done. rewrite Hne.
  change (String "'" (tail +:+ rest)) with (String "'" tail +:+ rest).
  by rewrite stripPrefix_append.
Qed.

Lemma matchFieldHere_group tail s group following :
  matchFieldHere tail s = Some (group, following) ->
  lacks "'" group = true /\ group ≠ "".
Proof.
  unfold matchFieldHere. destruct (stripPrefix "field '" s) as [rest|]; [|done].
  pose proof (spanNotQuote_lacks rest) as Hq.
  destruct (spanNotQuote rest) as [run after]. simpl in Hq.
  destruct (truthy run) eqn:E; [|done].
  destruct (stripPrefix tail after); [|done]. intros [= <- _].
  split; [done|]. by apply truthy_true.
Qed.

Lemma matchField_unfold tail s :
  matchField tail s
  = match matchFieldHere tail s with
    | Some found => Some found
    | None =>
        match s with
        | EmptyString => None
        | String _ rest => matchField tail rest
        end
    end.
Proof. by destruct s. Qed.

Lemma matchField_head tail s found :
  matchFieldHere tail s = Some found -> matchField tail s = Some found.
Proof. intros H. by rewrite matchField_unfold, H. Qed.

Lemma matchField_group tail s group following :
  matchField tail s = Some (group, following) ->
  lacks "'" group = true /\ group ≠ "".
Proof.
  induction s as [|c s IH]; rewrite matchField_unfold.
  - destruct (matchFieldHere tail "") as [[g f]|] eqn:E; [|done].
    intros [= <- <-]. by eapply matchFieldHere_group.
  - destruct (matchFieldHere tail (String c s)) as [[g f]|] eqn:E; [|done].
    intros [= <- <-]. by eapply matchFieldHere_group.
Qed.

Lemma matchTypes_unfold msg :
  matchTypes msg
  = match
      match matchFieldHere "' has inconsistent types: " msg with
      | Some (group, following) =>
          if truthy (dotRun following) then Some (group, dotRun following)
          else None
      | None => None
      end
    with
    | Some found => Some found
    | None =>
        match msg with
        | EmptyString => None
        | String _ rest => matchTypes rest
        end
    end.
Proof. by destruct msg. Qed.

Lemma matchTypes_group msg group listed :
  matchTypes msg = Some (group, listed) ->
  lacks "'" group = true /\ group ≠ "".
Proof.
  induction msg as [|c msg IH]; rewrite matchTypes_unfold;
    destruct (matchFieldHere _ _) as [[g f]|] eqn:E; try done;
    destruct (truthy (dotRun f)); try done;
    intros [= <- <-]; by eapply matchFieldHere_group.
Qed.

Lemma dotRun_single_line s :
  lacks "010" s = true -> lacks "013" s = true -> lacks "226" s = true ->
  dotRun s = s.
Proof.
  induction s as [|c s IH]; [done|]. simpl lacks.
  intros [H1 Hs1]%andb_true_iff [H2 Hs2]%andb_true_iff [H3 Hs3]%andb_true_iff.
  apply negb_true_iff in H1, H2, H3.
  change (dotRun (String c s))
    with (if Ascii.eqb c "010" || Ascii.eqb c "013" then EmptyString
          else if String.prefix (String "226" (String "128" (String "168" EmptyString))) (String c s)
                  || String.prefix (String "226" (String "128" (String "169" EmptyString))) (String c s)
          then EmptyString
          else String c (dotRun s)).
  rewrite H1, H2, !prefix_cons. rewrite (Ascii.eqb_sym "226" c), H3. simpl.
  by rewrite IH.
Qed.

Lemma isLowerCase_lacks c s :
  (N_of_ascii c < 97 \/ 122 < N_of_ascii c)%N ->
  isLowerCase s = true -> lacks c s = true.
Proof.
  intros Hc. induction s as [|d s IH]; [done|].
  change (isLowerCase (String d s))
    with ((97 <=? N_of_ascii d)%N && (N_of_ascii d <=? 122)%N && isLowerCase s).
  change (lacks c (String d s)) with (negb (Ascii.eqb d c) && lacks c s).
  intros [[Hlo Hhi]%andb_true_iff Hs]%andb_true_iff.
  apply N.leb_le in Hlo, Hhi. rewrite IH by done.
  rewrite Ascii_eqb_false; [done|]. intros ->. lia.
Qed.

Lemma lacks_join c ts :
  lacks c ", " = true ->
  Forall (fun t => lacks c t = true) ts ->
  lacks c (Array_join ", " ts) = true.
Proof.
  intros Hsep. induction ts as [|t ts IH]; [done|].
  intros [Ht Hts]%Forall_cons. destruct ts as [|t' ts]; [done|].
  change (Array_join ", " (t :: t' :: ts))
    with (t +:+ ", " +:+ Array_join ", " (t' :: ts)).
  by rewrite !lacks_append, Ht, Hsep, IH.
Qed.

Lemma String_includes_lacks c s sub :
  lacks c s = true -> lacks c sub = false -> String_includes s sub = false.
Proof.
  intros Hs Hsub. apply not_true_is_false.
  intros (a & b & ->)%String_includes_true.
  rewrite !lacks_append, Hsub in Hs. by rewrite andb_false_r in Hs.
Qed.

Lemma String_includes_listed ts :
  Forall (fun t => isLowerCase t = true) ts ->
  String_includes (" " +:+ Array_join ", " ts) "missing in" = false.
Proof.
  assert (Hone : forall t, isLowerCase t = true ->
                 String_includes (" " +:+ t) "missing in" = false).
  { intros t Ht. rewrite String_includes_unfold.
    change (" " +:+ t) with (String " " t). rewrite prefix_cons.
    apply (String_includes_lacks " "); [|done].
    apply isLowerCase_lacks; [|done]. by left. }
  induction ts as [|t ts IH]; [done|].
  intros [Ht Hts]%Forall_cons. destruct ts as [|t' ts]; [by apply Hone|].
  change (" " +:+ Array_join ", " (t :: t' :: ts))
    with (" " +:+ (t +:+ String "," (" " +:+ Array_join ", " (t' :: ts)))).
  rewrite <- append_assoc, String_includes_across by done.
  by rewrite Hone, IH.
Qed.

Lemma typesMessage_not_missing p ts :
  String_includes p "missing in" = false ->
  Forall (fun t => isLowerCase t = true) ts ->
  String_includes (typesMessage p ts) "missing in" = false.
Proof.
  intros Hp Hts. unfold typesMessage.
  change ("field '" +:+ p +:+ "' has inconsistent types: " +:+ Array_join ", " ts)
    with ("field " +:+ String "'"
            (p +:+ String "'"
               (" has inconsistent types" +:+ String ":"
                  (" " +:+ Array_join ", " ts)))).
  rewrite !String_includes_across by done.
  by rewrite Hp, String_includes_listed.
Qed.

Lemma typesMessage_mentions_types p ts :
  String_includes (typesMessage p ts) "has inconsistent types" = true.
Proof.
  unfold typesMessage.
  replace ("field '" +:+ p +:+ "' has inconsistent types: " +:+ Array_join ", " ts)
    with (("field '" +:+ p +:+ "' ") +:+ "has inconsistent types"
            +:+ (": " +:+ Array_join ", " ts)).
  - apply String_includes_append.
  - by rewrite !append_assoc.
Qed.

Lemma missingMessage_mentions_missing p k :
  String_includes (missingMessage p k) "missing in" = true.
Proof.
  unfold missingMessage.
  replace ("field '" +:+ p +:+ "' missing in " +:+ Number_toString k
             +:+ " response" +:+ (if 1 <? k then "s" else ""))
    with (("field '" +:+ p +:+ "' ") +:+ "missing in"
            +:+ (" " +:+ Number_toString k +:+ " response"
                   +:+ (if 1 <? k then "s" else ""))).
  - apply String_includes_append.
  - by rewrite !append_assoc.
Qed.

Lemma matchMissing_missingMessage p k :
  lacks "'" p = true -> truthy p = true ->
  matchMissing (missingMessage p k) = Some p.
Proof.
  intros Hq Hne. unfold matchMissing, missingMessage.
  change ("field '" +:+ p +:+ "' missing in " +:+ Number_toString k
            +:+ " response" +:+ (if 1 <? k then "s" else ""))
    with ("field '" +:+ p +:+ String "'" " missing in"
            +:+ (" " +:+ Number_toString k +:+ " response"
                   +:+ (if 1 <? k then "s" else ""))).
  by rewrite (matchField_head _ _ _ (matchFieldHere_message _ _ _ Hq Hne)).
Qed.

Lemma matchTypes_typesMessage p ts :
  lacks "'" p = true -> truthy p = true ->
  Forall (fun t => isLowerCase t = true) ts ->
  2 <= length ts ->
  matchTypes (typesMessage p ts) = Some (p, Array_join ", " ts).
Proof.
  intros Hq Hne Hts Hlen. rewrite matchTypes_unfold. unfold typesMessage.
  change ("field '" +:+ p +:+ "' has inconsistent types: " +:+ Array_join ", " ts)
    with ("field '" +:+ p +:+ String "'" " has inconsistent types: "
            +:+ Array_join ", " ts).
  rewrite matchFieldHere_message by done.
  rewrite dotRun_single_line.
  - destruct ts as [|t [|t' ts]]; simpl in Hlen; try lia.
    change (Array_join ", " (t :: t' :: ts))
      with (t +:+ ", " +:+ Array_join ", " (t' :: ts)).
    assert (Hne' : truthy (t +:+ ", " +:+ Array_join ", " (t' :: ts)) = true)
      by (by destruct t).
    by rewrite Hne'.
  - apply lacks_join; [done|]. eapply Forall_impl; [exact Hts|].
    intros t Ht. apply isLowerCase_lacks; [|done]. by left.
  - apply lacks_join; [done|]. eapply Forall_impl; [exact Hts|].
    intros t Ht. apply isLowerCase_lacks; [|done]. by left.
  - apply lacks_join; [done|]. eapply Forall_impl; [exact Hts|].
    intros t Ht. apply isLowerCase_lacks; [|done]. by right.
Qed.

(** ** Splitting the listed types *)

Lemma String_split_comma_space_cons c rest :
  String_split_comma_space (String c rest)
  = if Ascii.eqb c "," then
      match rest with
      | String d rest' =>
          if Ascii.eqb d " " then EmptyString :: String_split_comma_space rest'
          else consHead c (String_split_comma_space rest)
      | EmptyString => consHead c (String_split_comma_space rest)
      end
    else consHead c (String_split_comma_space rest).
Proof.
  destruct c as [[] [] [] [] [] [] [] []]; try reflexivity.
  destruct rest as [|d rest']; [reflexivity|].
  destruct d as [[] [] [] [] [] [] [] []]; reflexivity.
Qed.

Lemma Array_join_consHead c piece others :
  Array_join ", " (consHead c (piece :: others))
  = String c (Array_join ", " (piece :: others)).
Proof. by destruct others. Qed.

Lemma String_split_comma_space_join s :
  (exists piece others,
     String_split_comma_space s = piece :: others
     /\ Array_join ", " (piece :: others) = s)
  /\ forall c,
       exists piece others,
         String_split_comma_space (String c s) = piece :: others
         /\ Array_join ", " (piece :: others) = String c s.
Proof.
  induction s as [|d s [IHs IHc]].
  - split; [by exists EmptyString, []|].
    intros c. rewrite String_split_comma_space_cons.
    exists (String c EmptyString), []. by destruct (Ascii.eqb c ",").
  - split; [apply IHc|]. intros c. rewrite String_split_comma_space_cons.
    destruct (IHc d) as (piece & others & Hsplit & Hjoin).
    assert (Hplain : exists piece' others',
              consHead c (String_split_comma_space (String d s)) = piece' :: others'
              /\ Array_join ", " (piece' :: others') = String c (String d s)).
    { rewrite Hsplit. exists (String c piece), others. split; [done|].
      by rewrite <- Hjoin, <- Array_join_consHead. }
    destruct (Ascii.eqb c ",") eqn:Ec; [|done].
    destruct (Ascii.eqb d " ") eqn:Ed; [|done].
    apply Ascii.eqb_eq in Ec, Ed. subst.
    destruct IHs as (piece' & others' & -> & Hjoin').
    exists EmptyString, (piece' :: others'). split; [done|].
    change (Array_join ", " (EmptyString :: piece' :: others'))
      with (", " +:+ Array_join ", " (piece' :: others')).
    by rewrite Hjoin'.
Qed.

Lemma String_split_comma_space_prefix t rest :
  lacks "," t = true ->
  String_split_comma_space (t +:+ ", " +:+ rest)
  = t :: String_split_comma_space rest.
Proof.
  induction t as [|c t IH]; intros Ht.
  - change (EmptyString +:+ ", " +:+ rest) with (String "," (String " " rest)).
    by rewrite String_split_comma_space_cons.
  - simpl in Ht. apply andb_true_iff in Ht as [Hc Ht].
    apply negb_true_iff in Hc.
    rewrite append_cons, String_split_comma_space_cons, Hc, IH by done.
    done.
Qed.

(** The first type listed and the rest of the list, as the handler reads
    them back. *)
Lemma split_listed_types t ts :
  lacks "," t = true -> ts ≠ [] ->
  hd "" (String_split_comma_space (Array_join ", " (t :: ts))) = t
  /\ Array_join ", " (tl (String_split_comma_space (Array_join ", " (t :: ts))))
     = Array_join ", " ts.
Proof.
  intros Ht Hts. destruct ts as [|t' ts]; [done|].
  change (Array_join ", " (t :: t' :: ts))
    with (t +:+ ", " +:+ Array_join ", " (t' :: ts)).
  rewrite String_split_comma_space_prefix by done. split; [done|].
  destruct (String_split_comma_space_join (Array_join ", " (t' :: ts)))
    as [(piece & others & Hsplit & Hjoin) _].
  change (tl (t :: ?l)) with l. by rewrite Hsplit, Hjoin.
Qed.

(** ** Messages parsed back by the handler *)

Lemma parsablePath_spec p :
  parsablePath p = true
  <-> truthy p = true /\ lacks "'" p = true
      /\ String_includes p "missing in" = false.
Proof.
  unfold parsablePath. rewrite !andb_true_iff, negb_true_iff. tauto.
Qed.

Lemma parseInconsistency_missingMessage p k acc :
  lacks "'" p = true -> truthy p = true ->
  parseInconsistency (missingMessage p k) acc
  = {| Inconsistencies.missingFields :=
         Inconsistencies.missingFields acc ++ [missingEntryOf p];
       Inconsistencies.typeChanges := Inconsistencies.typeChanges acc;
       Inconsistencies.extraFields := Inconsistencies.extraFields acc |}.
Proof.
  intros Hq Hne. unfold parseInconsistency.
  by rewrite missingMessage_mentions_missing, matchMissing_missingMessage.
Qed.

Lemma parseInconsistency_typesMessage p ts acc :
  parsablePath p = true ->
  Forall (fun t => isLowerCase t = true) ts ->
  2 <= length ts ->
  parseInconsistency (typesMessage p ts) acc
  = {| Inconsistencies.missingFields := Inconsistencies.missingFields acc;
       Inconsistencies.typeChanges :=
         Inconsistencies.typeChanges acc ++ [typeChangeEntryOf p ts];
       Inconsistencies.extraFields := Inconsistencies.extraFields acc |}.
Proof.
  intros (Hne & Hq & Hp)%parsablePath_spec Hts Hlen. unfold parseInconsistency.
  rewrite typesMessage_not_missing, typesMessage_mentions_types,
    matchTypes_typesMessage by done.
  destruct ts as [|t [|t' ts]]; simpl in Hlen; try lia.
  apply Forall_cons in Hts as [Ht _].
  destruct (split_listed_types t (t' :: ts)) as [Hhd Htl]; [|done|].
  { apply isLowerCase_lacks; [by left|done]. }
  unfold typeChangeEntryOf. cbv zeta. by rewrite Hhd, Htl.
Qed.

(** X14. A missing-field message is parsed back into its field: whatever
    the count, the handler pushes one entry of type "missing" that carries
    the path, provided the path is not empty and holds no quote. *)
Theorem X14_missing_message_round_trip
    (p : string) (missingCount : nat) (acc : Inconsistencies.t) :
  lacks "'" p = true -> p ≠ "" ->
  parseInconsistency (missingMessage p missingCount) acc
  = {| Inconsistencies.missingFields :=
         Inconsistencies.missingFields acc ++ [missingEntryOf p];
       Inconsistencies.typeChanges := Inconsistencies.typeChanges acc;
       Inconsistencies.extraFields := Inconsistencies.extraFields acc |}.
Proof.
  intros Hq Hne. apply parseInconsistency_missingMessage; [done|].
  by apply truthy_true.
Qed.

Lemma X14_witness :
  Inconsistencies.missingFields
    (parseInconsistency (missingMessage "user.email" 3)
       {| Inconsistencies.missingFields := [];
          Inconsistencies.typeChanges := [];
          Inconsistencies.extraFields := [] |})
  = [missingEntryOf "user.email"].
Proof.
  rewrite (X14_missing_message_round_trip "user.email" 3); [reflexivity| |].
  - vm_compute. reflexivity.
  - discriminate.
Defined.

(** X15. A type-inconsistency message is parsed back into its field and
    its types: the expected type is the first type of the list, the actual
    type is the rest of the list joined by ", ".  The path must be parsable
    (not empty, no quote, without the words "missing in") and the types
    lower-case words, at least two of them. *)
Theorem X15_types_message_round_trip
    (p : string) (types : list string) (acc : Inconsistencies.t) :
  parsablePath p = true ->
  Forall (fun t => isLowerCase t = true) types ->
  2 <= length types ->
  parseInconsistency (typesMessage p types) acc
  = {| Inconsistencies.missingFields := Inconsistencies.missingFields acc;
       Inconsistencies.typeChanges :=
         Inconsistencies.typeChanges acc
         ++ [{| TypeChangeEntry.field := p;
                TypeChangeEntry.path := p;
                TypeChangeEntry.type := "type_change";
                TypeChangeEntry.expectedType := hd "" types;
                TypeChangeEntry.actualType := Array_join ", " (tl types) |}];
       Inconsistencies.extraFields := Inconsistencies.extraFields acc |}.
Proof. apply parseInconsistency_typesMessage. Qed.

Lemma X15_witness :
  TypeChangeEntry.actualType
    <$> Inconsistencies.typeChanges
          (parseInconsistency
             (typesMessage "age" ["number"; "string"; "null"])
             {| Inconsistencies.missingFields := [];
                Inconsistencies.typeChanges := [];
                Inconsistencies.extraFields := [] |})
  = ["string, null"].
Proof.
  rewrite (X15_types_message_round_trip "age" ["number"; "string"; "null"]).
  - reflexivity.
  - vm_compute. reflexivity.
  - repeat constructor.
  - simpl. lia.
Defined.

(** ** The tags resolved in extracted shapes *)

Lemma isTypeTag_isLowerCase tag : isTypeTag tag = true -> isLowerCase tag = true.
Proof.
  unfold isTypeTag. rewrite existsb_exists. intros (t & Ht & Heq).
  apply strictEq_true in Heq as ->.
  repeat (destruct Ht as [<-|Ht]; [by vm_compute|]). destruct Ht.
Qed.

Lemma extractedNode_shape s : extractedForm s = true -> extractedNode (NShape s).
Proof. by destruct s. Qed.

Lemma findProperty_extractedNode s key found :
  extractedForm s = true -> findProperty s key = Some found ->
  extractedNode found.
Proof.
  revert found.
  induction s as [tag| |elems IH|props proto IHprops IHproto]
    using ShapeValue_nested_ind; intros found Hs; try done.
  - simpl in Hs. destruct elems as [|x [|y elems]]; try done.
    change (findProperty (SArray [x]) key)
      with (match getOwn key (indexed [x]) with
            | Some v => Some (NShape v)
            | None => if strictEq key "length" then Some NOther else None
            end).
    destruct (getOwn key (indexed [x])) as [v|] eqn:E.
    + intros [= <-]. apply getOwn_Some_elem_of in E.
      apply list_elem_of_singleton in E as [= _ ->].
      by apply extractedNode_shape.
    + destruct (strictEq key "length"); [|done]. by intros [= <-].
  - simpl in Hs. apply andb_true_iff in Hs as [Hprops Hproto].
    simpl. destruct (getOwn key props) as [v|] eqn:E.
    + intros [= <-]. apply extractedNode_shape.
      apply getOwn_Some_elem_of in E.
      rewrite forallb_forall in Hprops.
      apply (Hprops (key, v)). by apply list_elem_of_In.
    + destruct proto as [p|]; [|done].
      apply andb_true_iff in Hproto as [_ Hp]. by apply IHproto.
Qed.

Lemma readProperty_extractedNode current part next :
  extractedNode current -> readProperty current part = Normal next ->
  extractedNode next.
Proof.
  destruct current as [[tag| |elems|props proto]| |]; try done.
  - intros Hs. unfold readProperty.
    destruct (findProperty (SObject props proto) part) as [found|] eqn:E.
    + intros [= <-]. by eapply findProperty_extractedNode.
    + destruct (strictEq part "__proto__" && _); intros [= <-]; [|done].
      destruct proto as [p|]; [|done]. simpl in Hs.
      apply andb_true_iff in Hs as [_ [_ Hp]%andb_true_iff].
      by apply extractedNode_shape.
  - intros _. simpl. by destruct (strictEq part "__proto__"); intros [= <-].
Qed.

Lemma walkParts_extractedNode parts current landed :
  extractedNode current -> walkParts parts current = Normal (Some landed) ->
  extractedNode landed.
Proof.
  revert current. induction parts as [|part rest IH]; intros current Hc.
  - by intros [= <-].
  - simpl. destruct (isPlainObject current); [|done].
    destruct (readProperty current part) as [next|err] eqn:E; [|done].
    simpl. apply IH. by eapply readProperty_extractedNode.
Qed.

Lemma classify_isLowerCase current :
  extractedNode current -> isLowerCase (classify current) = true.
Proof.
  destruct current as [[tag| |elems|props proto]| |]; try done.
  apply isTypeTag_isLowerCase.
Qed.

Lemma typeAtPath_isLowerCase s p :
  extractedForm s = true -> isLowerCase (typeAtPath s p) = true.
Proof.
  intros Hs. unfold typeAtPath, getTypeAtPath.
  destruct (walkParts (String_split "." p) (NShape s)) as [[landed|]|err] eqn:E;
    try done.
  simpl. apply classify_isLowerCase.
  eapply walkParts_extractedNode; [|exact E]. by apply extractedNode_shape.
Qed.

Lemma typeSet_isLowerCase l p :
  Forall (fun s => extractedForm s = true) l ->
  Forall (fun t => isLowerCase t = true) (typeSet l p).
Proof.
  intros Hl. apply Forall_forall. intros t Ht.
  apply elem_of_firstOccurrences, list_elem_of_fmap in Ht as (s & -> & Hs).
  apply list_elem_of_filter in Hs as [_ Hs].
  rewrite Forall_forall in Hl. by apply typeAtPath_isLowerCase, Hl.
Qed.

(** ** The structured form of the inconsistencies *)

Lemma parseInconsistencies_findings fs acc :
  Forall parsableFinding fs ->
  fold_left (fun acc msg => parseInconsistency msg acc) (render <$> fs) acc
  = {| Inconsistencies.missingFields :=
         Inconsistencies.missingFields acc ++ omap missingOf fs;
       Inconsistencies.typeChanges :=
         Inconsistencies.typeChanges acc ++ omap typeChangeOf fs;
       Inconsistencies.extraFields := Inconsistencies.extraFields acc |}.
Proof.
  revert acc. induction fs as [|f fs IH]; intros acc Hfs.
  - simpl. rewrite !app_nil_r. by destruct acc.
  - apply Forall_cons in Hfs as [Hf Hfs]. simpl fold_left. simpl fmap.
    destruct f as [p k|p ts]; simpl in Hf.
    + apply parsablePath_spec in Hf as (Hne & Hq & _).
      simpl render. rewrite parseInconsistency_missingMessage by done.
      rewrite IH by done. simpl. by rewrite <- app_assoc.
    + destruct Hf as (Hp & Hts & Hlen).
      simpl render. rewrite parseInconsistency_typesMessage by done.
      rewrite IH by done. simpl. by rewrite <- app_assoc.
Qed.

Lemma omap_findings l ps :
  omap missingOf (concat (fieldFindings l <$> ps))
  = missingEntryOf <$> filter (fun p => occurrenceCount l p < length l) ps
  /\ omap typeChangeOf (concat (fieldFindings l <$> ps))
     = (fun p => typeChangeEntryOf p (typeSet l p))
         <$> filter (fun p => 1 < length (typeSet l p)) ps.
Proof.
  induction ps as [|p ps [IHm IHt]]; [done|].
  rewrite fmap_cons.
  change (concat (fieldFindings l p :: (fieldFindings l <$> ps)))
    with (fieldFindings l p ++ concat (fieldFindings l <$> ps)).
  rewrite !omap_app, IHm, IHt, !filter_cons.
  unfold fieldFindings.
  destruct (decide (occurrenceCount l p < length l)) as [Ho|Ho];
    [rewrite (proj2 (Nat.ltb_lt _ _) Ho)
    |rewrite (proj2 (Nat.ltb_ge _ _) (proj1 (Nat.nlt_ge _ _) Ho))];
    (destruct (decide (1 < length (typeSet l p))) as [Ht|Ht];
     [rewrite (proj2 (Nat.ltb_lt _ _) Ht)
     |rewrite (proj2 (Nat.ltb_ge _ _) (proj1 (Nat.nlt_ge _ _) Ht))]);
    done.
Qed.

Lemma parsableFinding_findings l ps :
  Forall (fun s => extractedForm s = true) l ->
  Forall (fun p => parsablePath p = true) ps ->
  Forall parsableFinding (concat (fieldFindings l <$> ps)).
Proof.
  intros Hl. induction 1 as [|p ps Hp Hps IH]; [done|].
  rewrite fmap_cons.
  change (concat (fieldFindings l p :: (fieldFindings l <$> ps)))
    with (fieldFindings l p ++ concat (fieldFindings l <$> ps)).
  apply Forall_app. split; [|done]. unfold fieldFindings.
  apply Forall_app. split.
  - destruct (occurrenceCount l p <? length l); repeat constructor. done.
  - destruct (1 <? length (typeSet l p)) eqn:E; repeat constructor; try done.
    + by apply typeSet_isLowerCase.
    + apply Nat.ltb_lt in E. lia.
Qed.

Lemma parseInconsistencies_analysis l :
  Forall (fun s => extractedForm s = true) l ->
  Forall (fun p => parsablePath p = true) (fieldUniverse l) ->
  parseInconsistencies (concat (fieldMessages l <$> fieldUniverse l))
  = structuredOf l.
Proof.
  intros Hl Hps. rewrite <- render_findings. unfold parseInconsistencies.
  rewrite parseInconsistencies_findings
    by (by apply parsableFinding_findings).
  unfold findings. destruct (omap_findings l (fieldUniverse l)) as [-> ->].
  done.
Qed.

(** ** The shapes collected by the handler *)

Lemma fold_collectShape JSON_parse requests acc :
  fold_left (collectShape JSON_parse) requests acc
  = acc ++ collectedShapes JSON_parse requests.
Proof.
  revert acc. induction requests as [|req requests IH]; intros acc; simpl.
  - by rewrite app_nil_r.
  - rewrite IH. unfold collectShape, collectedShapes. simpl.
    destruct (shapeOfResponse JSON_parse req); [|done].
    by rewrite <- app_assoc.
Qed.

Lemma shapeOfResponse_extractedForm JSON_parse req shape :
  shapeOfResponse JSON_parse req = Some shape -> extractedForm shape = true.
Proof.
  unfold shapeOfResponse.
  destruct (Logged.responseBody req) as [body|]; [|done].
  destruct (Logged.statusCode req) as [status|]; [|done].
  destruct (truthy body && _ && _); [|done].
  destruct (JSON_parse body) as [parsed|err]; [|done]. simpl.
  destruct (extractShape parsed) as [s|err] eqn:E; [|done].
  intros [= <-]. by eapply extractedForm_extractShape.
Qed.

Lemma collectedShapes_extractedForm JSON_parse requests :
  Forall (fun s => extractedForm s = true) (collectedShapes JSON_parse requests).
Proof.
  apply Forall_forall. intros s (req & _ & Hs)%list_elem_of_omap.
  by eapply shapeOfResponse_extractedForm.
Qed.

Lemma orEmptyObject_extractedForm s :
  extractedForm s = true -> orEmptyObject s = s.
Proof.
  destruct s as [tag| |elems|props proto]; try done.
  simpl. intros Htag. destruct tag; [|done]. by vm_compute in Htag.
Qed.

Lemma diffOfEndpoint_spec JSON_parse getEndpointRequests Date_now endpoint l :
  l = collectedShapes JSON_parse
        (getEndpointRequests (Logged.method endpoint) (Logged.path endpoint) 100) ->
  diffOfEndpoint JSON_parse getEndpointRequests Date_now endpoint
  = Normal
      (if 1 <? length l then
         let messages := concat (fieldMessages l <$> fieldUniverse l) in
         if 0 <? length messages then
           Some {| DiffEntry.method := Logged.method endpoint;
                   DiffEntry.path := Logged.path endpoint;
                   DiffEntry.totalResponses := length l;
                   DiffEntry.inconsistencies := parseInconsistencies messages;
                   DiffEntry.baseShape := hd (SObject [] None) l;
                   DiffEntry.variantShapes := tail l |}
         else None
       else None).
Proof.
  intros Hl. unfold diffOfEndpoint. cbv zeta.
  rewrite fold_collectShape, app_nil_l, <- Hl.
  destruct (1 <? length l) eqn:E; [|done]. apply Nat.ltb_lt in E.
  rewrite analyzeEndpointDiffs_spec by (simpl; lia). simpl.
  destruct (0 <? length _); [|done]. do 3 f_equal.
  destruct l as [|first rest]; [done|]. simpl.
  apply orEmptyObject_extractedForm.
  pose proof (collectedShapes_extractedForm JSON_parse
                (getEndpointRequests (Logged.method endpoint)
                   (Logged.path endpoint) 100)) as Hall.
  rewrite <- Hl in Hall. by apply Forall_cons in Hall as [? _].
Qed.

(** X16. The structured answer for one endpoint.  When at least two of its
    logged responses count (a body, a status from 200 to 299, a body that
    parses and extracts) and every field path is parsable (not empty, no
    quote, without the words "missing in"), the handler pushes an entry
    exactly when the analysis has a finding, and the entry lists as missing
    the paths absent from some response, and as type changes the paths with
    more than one type, the first type seen being the expected one; no extra
    field is ever listed.  The base shape is the first shape collected and
    the variants are the others. *)
Theorem X16_structured_diff_of_an_endpoint
    (JSON_parse : string -> Completion JsValue)
    (getEndpointRequests : string -> string -> nat -> list Logged.Request)
    (Date_now : Z) (endpoint : Logged.Endpoint) (l : list ShapeValue) :
  l = collectedShapes JSON_parse
        (getEndpointRequests (Logged.method endpoint) (Logged.path endpoint) 100) ->
  2 <= length l ->
  Forall (fun p => parsablePath p = true) (fieldUniverse l) ->
  diffOfEndpoint JSON_parse getEndpointRequests Date_now endpoint
  = Normal match findings l with
           | [] => None
           | _ :: _ => Some (diffEntryOf endpoint l)
           end.
Proof.
  intros Hl Hlen Hps.
  rewrite (diffOfEndpoint_spec _ _ _ _ l Hl).
  rewrite (proj2 (Nat.ltb_lt 1 (length l))) by lia. cbv zeta.
  rewrite parseInconsistencies_analysis; [|subst l; apply collectedShapes_extractedForm|done].
  rewrite <- render_findings, length_fmap.
  by destruct (findings l).
Qed.

Lemma X16_witness :
  diffOfEndpoint exampleParse (fun _ _ _ => exampleRequests) 0 exampleEndpoint
  = Normal
      (Some
         {| DiffEntry.method := "GET";
            DiffEntry.path := "/users/1";
            DiffEntry.totalResponses := 2;
            DiffEntry.inconsistencies :=
              {| Inconsistencies.missingFields := [missingEntryOf "email"];
                 Inconsistencies.typeChanges :=
                   [typeChangeEntryOf "age" ["number"; "string"]];
                 Inconsistencies.extraFields := [] |};
            DiffEntry.baseShape :=
              plain [("id", SString "number"); ("email", SString "string");
                     ("age", SString "number")];
            DiffEntry.variantShapes :=
              [plain [("id", SString "number"); ("age", SString "string")]] |}).
Proof.
  rewrite (X16_structured_diff_of_an_endpoint
             exampleParse (fun _ _ _ => exampleRequests) 0 exampleEndpoint
             _ eq_refl).
  - vm_compute. reflexivity.
  - vm_compute. lia.
  - vm_compute. repeat constructor.
Defined.

(** ** What the handler never reports *)

Lemma parseInconsistency_wellFormed msg acc :
  wellFormedInconsistencies acc ->
  wellFormedInconsistencies (parseInconsistency msg acc).
Proof.
  intros (Hm & Ht & He). unfold parseInconsistency.
  destruct (String_includes msg "missing in").
  - unfold matchMissing.
    destruct (matchField "' missing in" msg) as [[group following]|] eqn:E;
      [|done].
    apply matchField_group in E as [Hq Hne].
    split; [|done]. simpl. apply Forall_app. split; [done|].
    by repeat constructor.
  - destruct (String_includes msg "has inconsistent types"); [|done].
    destruct (matchTypes msg) as [[group listed]|] eqn:E; [|done].
    apply matchTypes_group in E as [Hq Hne].
    split; [done|]. split; [|done]. simpl. apply Forall_app. split; [done|].
    by repeat constructor.
Qed.

Lemma parseInconsistencies_wellFormed msgs :
  wellFormedInconsistencies (parseInconsistencies msgs).
Proof.
  unfold parseInconsistencies.
  assert (Hstart : wellFormedInconsistencies
                     {| Inconsistencies.missingFields := [];
                        Inconsistencies.typeChanges := [];
                        Inconsistencies.extraFields := [] |})
    by (by repeat split).
  revert Hstart. generalize
    {| Inconsistencies.missingFields := [];
       Inconsistencies.typeChanges := [];
       Inconsistencies.extraFields := [] |}.
  induction msgs as [|msg msgs IH]; intros acc Hacc; [done|].
  simpl. by apply IH, parseInconsistency_wellFormed.
Qed.

(** X17. Whatever the messages of the analysis, a field the handler reports
    is never empty and never holds a quote, its path repeats it, and no
    extra field is listed.  So a field whose path holds a quote, as in
    "user's name", is never reported under its own name, neither as missing
    nor as a type change. *)
Theorem X17_reported_fields_hold_no_quote (msgs : list string) (p : string) :
  wellFormedInconsistencies (parseInconsistencies msgs)
  /\ (lacks "'" p = false ->
      (p ∉ MissingEntry.field
             <$> Inconsistencies.missingFields (parseInconsistencies msgs))
      /\ (p ∉ TypeChangeEntry.field
                <$> Inconsistencies.typeChanges (parseInconsistencies msgs))).
Proof.
  pose proof (parseInconsistencies_wellFormed msgs) as (Hm & Ht & He).
  split; [done|]. intros Hp.
  split; intros (e & -> & He')%list_elem_of_fmap.
  - apply (proj1 (Forall_forall _ _) Hm) in He' as (_ & Hq & _). congruence.
  - apply (proj1 (Forall_forall _ _) Ht) in He' as (_ & Hq & _). congruence.
Qed.

Lemma X17_witness :
  "user's name"
    ∉ (MissingEntry.field
         <$> Inconsistencies.missingFields
               (parseInconsistencies [missingMessage "user's name" 1])).
Proof.
  apply (X17_reported_fields_hold_no_quote
           [missingMessage "user's name" 1] "user's name").
  vm_compute. reflexivity.
Defined.

(** ** The answer of the handler *)

Lemma forOf_collect {A B : Type} (f : A -> option B)
    (body : A -> list B -> Completion (list B)) xs acc :
  (forall x s,
     body x s = Normal match f x with Some b => s ++ [b] | None => s end) ->
  forOf body xs acc = Normal (acc ++ omap f xs).
Proof.
  intros Hbody. revert acc. induction xs as [|x xs IH]; intros acc; simpl.
  - by rewrite app_nil_r.
  - rewrite Hbody. simpl. rewrite IH. destruct (f x); [|done].
    by rewrite <- app_assoc.
Qed.

Lemma length_omap_le {A B : Type} (f : A -> option B) xs :
  length (omap f xs) <= length xs.
Proof.
  induction xs as [|x xs IH]; csimpl; [done|]. destruct (f x); csimpl; lia.
Qed.

Lemma diffOfEndpoint_returns JSON_parse getEndpointRequests Date_now endpoint :
  exists entry,
    diffOfEndpoint JSON_parse getEndpointRequests Date_now endpoint
    = Normal entry
    /\ forall found, entry = Some found ->
       entryKey found = endpointKey endpoint
       /\ 2 <= DiffEntry.totalResponses found
       /\ DiffEntry.totalResponses found
          = S (length (DiffEntry.variantShapes found))
       /\ DiffEntry.totalResponses found
          <= length (getEndpointRequests (Logged.method endpoint)
                       (Logged.path endpoint) 100)
       /\ wellFormedInconsistencies (DiffEntry.inconsistencies found).
Proof.
  eexists. split; [by apply diffOfEndpoint_spec|].
  set (requests := getEndpointRequests _ _ _).
  set (l := collectedShapes JSON_parse requests).
  intros found. destruct (1 <? length l) eqn:E; [|done].
  apply Nat.ltb_lt in E. cbv zeta. destruct (0 <? length _); [|done].
  intros [= <-]. simpl.
  assert (Hlen : length l <= length requests) by apply length_omap_le.
  clearbody l. split; [done|]. split; [lia|]. split; [destruct l; simpl in *; [lia|done]|].
  split; [done|]. apply parseInconsistencies_wellFormed.
Qed.

Lemma collectDiffs_spec JSON_parse getUniqueEndpoints getEndpointRequests Date_now :
  exists entryOf,
    (forall endpoint,
       diffOfEndpoint JSON_parse getEndpointRequests Date_now endpoint
       = Normal (entryOf endpoint))
    /\ collectDiffs JSON_parse getUniqueEndpoints getEndpointRequests Date_now
       = Normal (omap entryOf getUniqueEndpoints).
Proof.
  eexists. split.
  - intros endpoint. by apply diffOfEndpoint_spec.
  - unfold collectDiffs. erewrite forOf_collect; [done|].
    intros endpoint diffs. cbv beta.
    by erewrite diffOfEndpoint_spec.
Qed.

Lemma sublist_omap_keys (entryOf : Logged.Endpoint -> option DiffEntry.t) endpoints :
  (forall endpoint found,
     entryOf endpoint = Some found -> entryKey found = endpointKey endpoint) ->
  sublist (entryKey <$> omap entryOf endpoints) (endpointKey <$> endpoints).
Proof.
  intros Hkey. induction endpoints as [|endpoint endpoints IH]; [done|].
  simpl. destruct (entryOf endpoint) as [found|] eqn:E.
  - rewrite fmap_cons, (Hkey _ _ E). by apply sublist_skip.
  - by apply sublist_cons.
Qed.

(** X18. The handler of GET /api/diffs never answers 500: a body that does
    not parse or does not extract is skipped, and the analysis itself does
    not throw.  The count of the answer is the number of entries; the
    entries follow the order of the endpoints, at most one for each; and
    every entry stands for at least two responses, one base shape and the
    variants, taken from the logged responses of its endpoint. *)
Theorem X18_diffs_are_always_answered
    (JSON_parse : string -> Completion JsValue)
    (getUniqueEndpoints : list Logged.Endpoint)
    (getEndpointRequests : string -> string -> nat -> list Logged.Request)
    (Date_now : Z) :
  exists data,
    apiDiffs JSON_parse getUniqueEndpoints getEndpointRequests Date_now
    = Success (length data) data
    /\ sublist (entryKey <$> data) (endpointKey <$> getUniqueEndpoints)
    /\ Forall (fun entry =>
                 2 <= DiffEntry.totalResponses entry
                 /\ DiffEntry.totalResponses entry
                    = S (length (DiffEntry.variantShapes entry))
                 /\ DiffEntry.totalResponses entry
                    <= length (getEndpointRequests (DiffEntry.method entry)
                                 (DiffEntry.path entry) 100))
         data.
Proof.
  destruct (collectDiffs_spec JSON_parse getUniqueEndpoints
              getEndpointRequests Date_now) as (entryOf & Hentry & Hall).
  assert (Hinv : forall endpoint found,
            entryOf endpoint = Some found ->
            entryKey found = endpointKey endpoint
            /\ 2 <= DiffEntry.totalResponses found
            /\ DiffEntry.totalResponses found
               = S (length (DiffEntry.variantShapes found))
            /\ DiffEntry.totalResponses found
               <= length (getEndpointRequests (Logged.method endpoint)
                            (Logged.path endpoint) 100)
            /\ wellFormedInconsistencies (DiffEntry.inconsistencies found)).
  { intros endpoint found Hfound.
    destruct (diffOfEndpoint_returns JSON_parse getEndpointRequests Date_now
                endpoint) as (entry & Heq & Hprops).
    rewrite Hentry in Heq. injection Heq as <-. by apply Hprops. }
  exists (omap entryOf getUniqueEndpoints). unfold apiDiffs. rewrite Hall.
  split; [done|]. split.
  - apply sublist_omap_keys. intros endpoint found Hfound.
    by destruct (Hinv endpoint found Hfound).
  - apply Forall_forall. intros found (endpoint & _ & Hfound)%list_elem_of_omap.
    destruct (Hinv endpoint found Hfound) as (Hkey & H2 & HS & Hle & _).
    injection Hkey as -> ->. done.
Qed.

(** X19. A response whose body holds an object with a property named
    "hasOwnProperty" where extraction meets it is left out of the analysis:
    the exception of the extractor is caught with those of the parser, and
    the response counts for nothing, whatever its status. *)
Theorem X19_response_shadowing_hasOwnProperty_is_skipped
    (JSON_parse : string -> Completion JsValue) (req : Logged.Request)
    (body : string) (value : JsValue) (shapes : list ShapeValue) :
  Logged.responseBody req = Some body ->
  JSON_parse body = Normal value ->
  shadowsHasOwnProperty value = true ->
  collectShape JSON_parse shapes req = shapes.
Proof.
  intros Hbody Hparse Hshadow. unfold collectShape, shapeOfResponse.
  rewrite Hbody. destruct (Logged.statusCode req) as [status|]; [|done].
  destruct (truthy body && _ && _); [|done].
  rewrite Hparse. simpl.
  destruct (extractShape_outcome value) as [_ Hthrow].
  by rewrite (Hthrow Hshadow).
Qed.

Lemma X19_witness :
  collectShape exampleParse [SString "number"]
    {| Logged.responseBody := Some "third user";
       Logged.statusCode := Some 200%Z; Logged.timestamp := 5%Z |}
  = [SString "number"].
Proof.
  apply (X19_response_shadowing_hasOwnProperty_is_skipped exampleParse _
           "third user"
           (JObject [("id", JNumber (Finite 3));
                     ("hasOwnProperty", JBoolean true)])).
  - reflexivity.
  - vm_compute. reflexivity.
  - vm_compute. reflexivity.
Defined.

(** ** Type changes that are taken for missing fields *)












(** ** The statement of [getRequests] *)

(** X21. Whatever the filters, the statement of getRequests has as many
    placeholders as values bound to it, and the last value is the limit,
    100 when none is given. *)
Theorem X21_one_value_for_each_placeholder
    (String_toUpperCase : string -> string) (filters : RequestFilters.t) :
  occurrences "?" (getRequests_statement String_toUpperCase filters).1
  = length (getRequests_statement String_toUpperCase filters).2
  /\ last (getRequests_statement String_toUpperCase filters).2
     = Some (PNumber (default (Finite 100) (RequestFilters.limit filters))).
Proof.
  destruct filters as [[m|] [p|] [s|] [sid|] l]; unfold getRequests_statement;
    cbn [RequestFilters.method RequestFilters.path RequestFilters.statusCode
         RequestFilters.sessionId RequestFilters.limit];
    repeat match goal with |- context [truthy ?x] => destruct (truthy x) end;
    split; reflexivity.
Qed.

Lemma getRequests_statement_text String_toUpperCase filters :
  (getRequests_statement String_toUpperCase filters).1
  = let '(byMethod, byPath, byStatus, bySession) := filtersGiven filters in
    "SELECT * FROM requests WHERE 1=1"
      +:+ (if byMethod then " AND method = ?" else "")
      +:+ (if byPath then " AND path LIKE ?" else "")
      +:+ (if byStatus then " AND status_code = ?" else "")
      +:+ (if bySession then " AND session_id = ?" else "")
      +:+ " ORDER BY timestamp DESC LIMIT ?".
Proof.
  destruct filters as [[m|] [p|] [s|] [sid|] l];
    unfold filtersGiven, getRequests_statement;
    cbn [RequestFilters.method RequestFilters.path RequestFilters.statusCode
         RequestFilters.sessionId RequestFilters.limit from_option];
    repeat match goal with |- context [truthy ?x] => destruct (truthy x) end;
    reflexivity.
Qed.

(** X22. The text of the statement does not depend on the values of the
    filters, only on which of them are given: the values reach the database
    as bound parameters and never as part of the SQL text. *)
Theorem X22_filter_values_never_enter_the_statement
    (String_toUpperCase : string -> string)
    (filters filters' : RequestFilters.t) :
  filtersGiven filters = filtersGiven filters' ->
  (getRequests_statement String_toUpperCase filters).1
  = (getRequests_statement String_toUpperCase filters').1.
Proof. intros Hgiven. by rewrite !getRequests_statement_text, Hgiven. Qed.

Lemma X22_witness :
  (getRequests_statement (fun s => s)
     {| RequestFilters.method := Some "GET";
        RequestFilters.path := Some "' OR 1=1 --";
        RequestFilters.statusCode := None;
        RequestFilters.sessionId := None;
        RequestFilters.limit := None |}).1
  = "SELECT * FROM requests WHERE 1=1 AND method = ? AND path LIKE ? ORDER BY timestamp DESC LIMIT ?".
Proof.
  apply (X22_filter_values_never_enter_the_statement (fun s => s)
           {| RequestFilters.method := Some "GET";
              RequestFilters.path := Some "' OR 1=1 --";
              RequestFilters.statusCode := None;
              RequestFilters.sessionId := None;
              RequestFilters.limit := None |}
           {| RequestFilters.method := Some "POST";
              RequestFilters.path := Some "/users";
              RequestFilters.statusCode := None;
              RequestFilters.sessionId := Some "";
              RequestFilters.limit := Some (Finite 5) |}).
  reflexivity.
Defined.
